(** * Journey planning over a transit multigraph (app/plan_route.py)

    A shallow embedding of [plan_route.py]: nearest-stop candidates from a
    k-d tree, the walking-distance filter, per-pair shortest paths over a
    [networkx.MultiGraph], the fewest-changes filter and the decomposition
    of a stop sequence into ride segments.

    Python exceptions are values of [exn]; a call that may raise returns
    [exn + A] with [inl] the raised exception.  Floats are modelled by the
    rationals they denote (no NaN, no infinity, no rounding): the functions
    below only copy, compare and look up coordinates. *)

From Stdlib Require Import String Bool Arith ZArith QArith Qabs Lia List Permutation.
Import ListNotations.
Open Scope string_scope.
Open Scope list_scope.
Open Scope nat_scope.

(** ** Exceptions and the error monad *)

Inductive exn : Type :=
| KeyError          (* dict / adjacency lookup of a missing key *)
| IndexError        (* array index out of bounds *)
| TypeError         (* iteration over a scalar *)
| ValueError        (* min() of an empty sequence, bad k *)
| RuntimeError      (* StopIteration escaping a generator (PEP 479) *)
| NodeNotFound      (* networkx: source or target not in the graph *)
| NetworkXNoPath.   (* networkx: no path between source and target *)

Definition result (A : Type) : Type := (exn + A)%type.

Definition ret {A} (a : A) : result A := inr a.
Definition raise {A} (e : exn) : result A := inl e.

Definition bind {A B} (m : result A) (f : A -> result B) : result B :=
  match m with
  | inl e => inl e
  | inr a => f a
  end.

Notation "x <- m ;; k" := (bind m (fun x => k))
  (at level 61, m at next level, right associativity).

(** A list comprehension whose body may raise: elements are evaluated left
    to right and the first exception aborts the whole comprehension. *)
Fixpoint mapM {A B} (f : A -> result B) (l : list A) : result (list B) :=
  match l with
  | [] => ret []
  | a :: l' => b <- f a ;; bs <- mapM f l' ;; ret (b :: bs)
  end.

Definition raises {A} (m : result A) : Prop := exists e, m = inl e.

(** ** Data *)

Abbreviation StopId := string (only parsing).
Abbreviation Line := string (only parsing).
Abbreviation Coord := (Q * Q)%type (only parsing).   (* (lat, lon) *)

(** Python compares floats, and tuples of floats, by value. *)
Definition coord_eqb (a b : Coord) : bool :=
  Qeq_bool (fst a) (fst b) && Qeq_bool (snd a) (snd b).

(** The JSON-like values that [parse_route] yields. *)
#[local] Set Warnings "-register-all".
Inductive value : Type :=
| VStr (s : string)
| VNum (q : Q)
| VList (l : list value)
| VDict (d : list (string * value)).

Fixpoint assoc {A} (k : string) (d : list (string * A)) : option A :=
  match d with
  | [] => None
  | (k', v) :: d' => if String.eqb k k' then Some v else assoc k d'
  end.

Definition dict_get (k : string) (v : value) : option value :=
  match v with
  | VDict d => assoc k d
  | _ => None
  end.

Definition dict_keys (v : value) : list string :=
  match v with
  | VDict d => map fst d
  | _ => []
  end.

(** [d[k]] on a dict with string keys. *)
Definition getitem {A} (d : list (string * A)) (k : string) : result A :=
  match assoc k d with
  | Some v => ret v
  | None => raise KeyError
  end.

(** ** The spatial index: [scipy.spatial.cKDTree]

    [tree.data] is the array of indexed points.  [tree.query(x, k)] returns
    the indices of the [k] points nearest to [x] by Euclidean distance,
    nearest first; when fewer than [k] points exist the missing neighbours
    are reported with index [n = len(tree.data)].  For [k = 1] the result is
    squeezed to a scalar. *)

Record cKDTree : Type := { data : list Coord }.

Definition sq_euclid (a b : Coord) : Q :=
  (fst a - fst b) * (fst a - fst b) + (snd a - snd b) * (snd a - snd b).

Fixpoint insert_by (key : nat -> Q) (i : nat) (l : list nat) : list nat :=
  match l with
  | [] => [i]
  | j :: l' => if Qle_bool (key i) (key j) then i :: l
               else j :: insert_by key i l'
  end.

(** Indices of [pts] by increasing distance from [x].  scipy compares the
    distances in float64 and leaves the order of equidistant points open;
    here the distances are exact and the lower index comes first.  No
    general statement below depends on that order. *)
Definition by_distance (pts : list Coord) (x : Coord) : list nat :=
  fold_right (insert_by (fun i => sq_euclid x (nth i pts (0, 0)%Q)))
             [] (seq 0 (length pts)).

(** What iterating over the index array returned by [tree.query] gives. *)
Definition query_indexes (tree : cKDTree) (x : Coord) (k : nat)
  : result (list nat) :=
  match k with
  | 0 => raise ValueError
  | 1 => raise TypeError
  | _ => let n := length (data tree) in
         let found := firstn k (by_distance (data tree) x) in
         ret (found ++ repeat n (k - length found))
  end.

(** [tree.data[idx]] *)
Definition data_at (tree : cKDTree) (idx : nat) : result Coord :=
  match nth_error (data tree) idx with
  | Some c => ret c
  | None => raise IndexError
  end.

(** ** The transit graph: [networkx.MultiGraph]

    An undirected multigraph: every edge joins two stops and carries a line
    identifier; several edges may join the same two stops.  [edges] lists
    the edges in insertion order, [isolated] the stops added without any
    edge. *)

Record Edge : Type := { u_of : StopId; v_of : StopId; line : Line }.

Record MultiGraph : Type := { isolated : list StopId; edges : list Edge }.

Definition joins (a b : StopId) (e : Edge) : bool :=
  (String.eqb (u_of e) a && String.eqb (v_of e) b)
  || (String.eqb (u_of e) b && String.eqb (v_of e) a).

Definition graph_nodes (g : MultiGraph) : list StopId :=
  isolated g ++ flat_map (fun e => [u_of e; v_of e]) (edges g).

Definition mem (s : StopId) (l : list StopId) : bool :=
  existsb (String.eqb s) l.

Definition has_node (g : MultiGraph) (s : StopId) : bool :=
  mem s (graph_nodes g).

(** The neighbours of [a], in adjacency order (one entry per edge). *)
Definition neighbors (g : MultiGraph) (a : StopId) : list StopId :=
  flat_map (fun e => if String.eqb (u_of e) a then [v_of e]
                     else if String.eqb (v_of e) a then [u_of e]
                     else []) (edges g).

(** [graph[a][b]]: the parallel edges between [a] and [b]. *)
Definition parallel_edges (g : MultiGraph) (a b : StopId) : list Edge :=
  filter (joins a b) (edges g).

Definition edges_between (g : MultiGraph) (a b : StopId)
  : result (list Edge) :=
  match parallel_edges g a b with
  | [] => raise KeyError        (* [a] unknown, or [b] not adjacent to [a] *)
  | es => ret es
  end.

(** *** [networkx.shortest_path(graph, source, target)], unweighted

    Breadth-first search by levels.  The frontier holds, for every stop
    first reached at the current level, the path that reached it, newest
    stop first.  Which of several equally short paths is returned is the
    library's choice; here it is the one found first in adjacency order. *)

Definition ends_at (t : StopId) (p : list StopId) : bool :=
  match p with
  | [] => false
  | v :: _ => String.eqb v t
  end.

(** Extend path [p] by each neighbour in [nbrs] not seen so far. *)
Fixpoint visit (p : list StopId) (nbrs seen : list StopId)
  : list StopId * list (list StopId) :=
  match nbrs with
  | [] => (seen, [])
  | v :: vs =>
      if mem v seen then visit p vs seen
      else let '(seen', ps) := visit p vs (v :: seen) in
           (seen', (v :: p) :: ps)
  end.

(** One level: extend every frontier path. *)
Fixpoint level (g : MultiGraph) (frontier : list (list StopId))
         (seen : list StopId) : list StopId * list (list StopId) :=
  match frontier with
  | [] => (seen, [])
  | p :: ps =>
      let '(seen1, new1) := visit p (neighbors g (hd EmptyString p)) seen in
      let '(seen2, new2) := level g ps seen1 in
      (seen2, new1 ++ new2)
  end.

Fixpoint bfs (g : MultiGraph) (t : StopId) (fuel : nat)
         (seen : list StopId) (frontier : list (list StopId))
  : option (list StopId) :=
  match find (ends_at t) frontier with
  | Some p => Some (rev p)
  | None =>
      match fuel with
      | 0 => None
      | S fuel' =>
          match level g frontier seen with
          | (_, []) => None
          | (seen', next) => bfs g t fuel' seen' next
          end
      end
  end.

Definition shortest_path (g : MultiGraph) (source target : StopId)
  : result (list StopId) :=
  if has_node g source && has_node g target then
    match bfs g target (length (graph_nodes g)) [source] [[source]] with
    | Some p => ret p
    | None => raise NetworkXNoPath
    end
  else raise NodeNotFound.

(** ** The module [data_loader]

    [plan_route.py] imports these objects; how they are built is outside
    the planner.  [COORD_STOPS] maps a coordinate to its stop id,
    [STOP_COORDS] a stop id to its coordinate. *)

Record data_loader : Type := {
  ALL_STOPS_TREE : cKDTree;
  COORD_STOPS : list (Coord * StopId);
  GRAPH : MultiGraph;
  LINES : list Line;
  STOP_COORDS : list (StopId * Coord)
}.

(** ** The planner *)

Section Planner.

(** [geopy.distance.distance(a, b).meters] *)
Variable distance : Coord -> Coord -> Q.

Variable dl : data_loader.

Definition k_nearest_stop_coords (lat lon : Q) (k : nat)
  : result (list Coord) :=
  indexes <- query_indexes (ALL_STOPS_TREE dl) (lat, lon) k ;;
  mapM (data_at (ALL_STOPS_TREE dl)) indexes.

Fixpoint lookup_coord (d : list (Coord * StopId)) (c : Coord)
  : option StopId :=
  match d with
  | [] => None
  | (c', s) :: d' => if coord_eqb c c' then Some s else lookup_coord d' c
  end.

Definition stop_id (coords : Coord) : result StopId :=
  match lookup_coord (COORD_STOPS dl) coords with
  | Some s => ret s
  | None => raise KeyError
  end.

(** Python truth value of an [Optional[int]]: [None] and [0] are false. *)
Definition truthy (o : option Z) : bool :=
  match o with
  | Some m => negb (m =? 0)%Z
  | None => false
  end.

Definition exceeds (changes : list StopId) (o : option Z) : bool :=
  match o with
  | Some m => (m <? Z.of_nat (length changes) - 2)%Z
  | None => false
  end.

Definition journey_transits (origin_stop_id destination_stop_id : StopId)
           (max_changes : option Z) : result (list StopId) :=
  changes <- shortest_path (GRAPH dl) origin_stop_id destination_stop_id ;;
  if truthy max_changes && exceeds changes max_changes then ret []
  else ret changes.

Definition lines_connecting_stops (origin_stop_id destination_stop_id : StopId)
  : result (list Line) :=
  es <- edges_between (GRAPH dl) origin_stop_id destination_stop_id ;;
  ret (map line es).

Definition stop_dict (s : StopId) : result value :=
  c <- getitem (STOP_COORDS dl) s ;;
  ret (VDict [("id", VStr s); ("lat", VNum (fst c)); ("lng", VNum (snd c))]).

(** The body of the [for next_stop in changes] loop, from [prev_stop]. *)
Fixpoint segments (prev_stop : StopId) (changes : list StopId)
  : result (list value) :=
  match changes with
  | [] => ret []
  | next_stop :: rest =>
      es <- edges_between (GRAPH dl) prev_stop next_stop ;;
      let lines := map line es in
      board <- stop_dict prev_stop ;;
      deboard <- stop_dict next_stop ;;
      let seg := VDict [("busses", VList (map VStr lines));
                        ("board", board);
                        ("deboard", deboard)] in
      segs <- segments next_stop rest ;;
      ret (seg :: segs)
  end.

(** [list(parse_route(changes))]: the generator run to exhaustion.  On an
    empty list [next(changes)] raises StopIteration inside the generator,
    which surfaces as RuntimeError. *)
Definition parse_route (changes : list StopId) : result (list value) :=
  match changes with
  | [] => raise RuntimeError
  | prev_stop :: rest => segments prev_stop rest
  end.

(** [min(options, key=len)]: the first option of least length. *)
Fixpoint min_by_len {A} (options : list (list A)) : result (list A) :=
  match options with
  | [] => raise ValueError
  | t :: rest =>
      match min_by_len rest with
      | inl _ => ret t
      | inr m => if length m <? length t then ret m else ret t
      end
  end.

Definition within_walk (point : Coord) (max_walk : Z) (stops : list Coord)
  : list Coord :=
  filter (fun s => Qle_bool (distance point s) (inject_Z max_walk)) stops.

Definition pair_transits (pair : Coord * Coord) : result (list StopId) :=
  o <- stop_id (fst pair) ;;
  d <- stop_id (snd pair) ;;
  journey_transits o d None.

Definition keep_fewest (transit_options : list (list StopId))
  : result (list (list StopId)) :=
  shortest <- min_by_len transit_options ;;
  let fewest_changes := length shortest in
  ret (filter (fun t => length t =? fewest_changes) transit_options).

Definition find_routes (origin destination : Coord) (max_walk : Z)
  : result (list (list value)) :=
  origin_stops <- k_nearest_stop_coords (fst origin) (snd origin) 10 ;;
  destination_stops <-
    k_nearest_stop_coords (fst destination) (snd destination) 10 ;;
  let origin_stops := within_walk origin max_walk origin_stops in
  let destination_stops :=
    within_walk destination max_walk destination_stops in
  transit_options <-
    mapM pair_transits (list_prod origin_stops destination_stops) ;;
  transit_options <- keep_fewest transit_options ;;
  mapM parse_route transit_options.

End Planner.

(** * Specification vocabulary *)

(** Two stops are adjacent when at least one edge joins them. *)
Definition adjacent (g : MultiGraph) (a b : StopId) : Prop :=
  exists e, In e (edges g) /\ joins a b e = true.

(** A transit path: consecutive stops are adjacent. *)
Fixpoint chain (g : MultiGraph) (p : list StopId) : Prop :=
  match p with
  | a :: (b :: _) as p' => adjacent g a b /\ chain g p'
  | _ => True
  end.

(** Stops of the same connected component. *)
Inductive connected (g : MultiGraph) (a : StopId) : StopId -> Prop :=
| connected_refl : connected g a a
| connected_step b c : connected g a b -> adjacent g b c -> connected g a c.

(** A path from [s], newest stop first (the shape of a frontier entry). *)
Inductive rpath (g : MultiGraph) (s : StopId) : list StopId -> Prop :=
| rpath_start : rpath g s [s]
| rpath_step v u q :
    rpath g s (u :: q) -> adjacent g u v -> rpath g s (v :: u :: q).

Definition heads (frontier : list (list StopId)) : list StopId :=
  map (hd EmptyString) frontier.

(** The candidate pairs of one planning call, in the order in which
    [find_routes] searches them. *)
Definition candidate_pairs (distance : Coord -> Coord -> Q) (dl : data_loader)
           (origin destination : Coord) (max_walk : Z)
  : result (list (Coord * Coord)) :=
  origin_stops <- k_nearest_stop_coords dl (fst origin) (snd origin) 10 ;;
  destination_stops <-
    k_nearest_stop_coords dl (fst destination) (snd destination) 10 ;;
  ret (list_prod (within_walk distance origin max_walk origin_stops)
                 (within_walk distance destination max_walk destination_stops)).

(** Reading a ride segment. *)
Definition field (outer inner : string) (seg : value) : option value :=
  match dict_get outer seg with
  | Some d => dict_get inner d
  | None => None
  end.

Definition strings_of (v : value) : list string :=
  match v with
  | VList l => flat_map (fun x => match x with VStr s => [s] | _ => [] end) l
  | _ => []
  end.

Definition lines_under (key : string) (seg : value) : list Line :=
  match dict_get key seg with
  | Some v => strings_of v
  | None => []
  end.

(** The shape [{id, lat, lng}] of a boarding or deboarding stop. *)
Definition is_stop_dict (v : value) : Prop :=
  exists s lat lng,
    v = VDict [("id", VStr s); ("lat", VNum lat); ("lng", VNum lng)].

(** The shape of a ride segment whose line collection sits under [key]. *)
Definition is_segment (key : string) (v : value) : Prop :=
  exists lines board deboard,
    v = VDict [(key, VList (map VStr lines));
               ("board", board); ("deboard", deboard)]
    /\ is_stop_dict board /\ is_stop_dict deboard.

(** The data-model invariant: every stop of the graph has a coordinate. *)
Definition coords_cover (dl : data_loader) (stops : list StopId) : Prop :=
  forall s, In s stops -> exists c, assoc s (STOP_COORDS dl) = Some c.

(** Well-formed planner data: the index holds at least the ten stops that
    [find_routes] asks for, every indexed coordinate names a stop of the
    graph, and every stop of the graph has a coordinate. *)
Record well_formed (dl : data_loader) : Prop := {
  wf_index : 10 <= length (data (ALL_STOPS_TREE dl));
  wf_ids : forall c, In c (data (ALL_STOPS_TREE dl)) ->
      exists s, stop_id dl c = inr s /\ has_node (GRAPH dl) s = true;
  wf_coords : coords_cover dl (graph_nodes (GRAPH dl))
}.

(** The state of the search between two levels: every frontier entry is a
    path from the source; a seen stop off the frontier has all its
    neighbours seen; the target, once seen, is on the frontier. *)
Record bfs_inv (g : MultiGraph) (s t : StopId)
       (seen : list StopId) (frontier : list (list StopId)) : Prop := {
  inv_paths : forall q, In q frontier -> rpath g s q;
  inv_source : In s seen;
  inv_closed : forall u, In u seen ->
      In u (heads frontier) \/ (forall v, adjacent g u v -> In v seen);
  inv_target : In t seen -> In t (heads frontier);
  inv_nodup : NoDup seen;
  inv_nodes : incl seen (graph_nodes g)
}.

(** * A small network

    Twelve stops on a line, one unit of longitude apart.  [grid_distance]
    stands in for the geodesic distance: 100 m per unit. *)

Definition grid_distance (a b : Coord) : Q :=
  100 * (Qabs (fst a - fst b) + Qabs (snd a - snd b)).

Definition stop_names : list StopId :=
  ["s0"; "s1"; "s2"; "s3"; "s4"; "s5"; "s6"; "s7"; "s8"; "s9"; "s10"; "s11"].

Definition stop_coords : list Coord :=
  map (fun i => (0, inject_Z (Z.of_nat i))%Q) (seq 0 12).

Definition hop (i : nat) (l : Line) : Edge :=
  {| u_of := nth i stop_names EmptyString; v_of := nth (S i) stop_names EmptyString; line := l |}.

(** s0 - s1 - ... - s11 on line L1, with a second line L2 from s0 to s1. *)
Definition line_graph : MultiGraph :=
  {| isolated := [];
     edges := hop 0 "L1" :: hop 0 "L2" :: map (fun i => hop i "L1") (seq 1 10) |}.

(** The same stops, with no service between s3 and s4. *)
Definition split_graph : MultiGraph :=
  {| isolated := [];
     edges := map (fun i => hop i "L1") (seq 0 3)
              ++ map (fun i => hop i "L1") (seq 4 7) |}.

Definition town_on (g : MultiGraph) : data_loader :=
  {| ALL_STOPS_TREE := {| data := stop_coords |};
     COORD_STOPS := combine stop_coords stop_names;
     GRAPH := g;
     LINES := ["L1"; "L2"];
     STOP_COORDS := combine stop_names stop_coords |}.

Definition town : data_loader := town_on line_graph.
Definition split_town : data_loader := town_on split_graph.

(** An index of three stops only. *)
Definition hamlet : data_loader :=
  {| ALL_STOPS_TREE := {| data := firstn 3 stop_coords |};
     COORD_STOPS := combine (firstn 3 stop_coords) (firstn 3 stop_names);
     GRAPH := {| isolated := []; edges := [hop 0 "L1"; hop 1 "L1"] |};
     LINES := ["L1"];
     STOP_COORDS := combine (firstn 3 stop_names) (firstn 3 stop_coords) |}.

(** * Properties *)

(** ** The error monad *)

Lemma bind_inr {A B} (m : result A) (f : A -> result B) (b : B) :
  bind m f = inr b <-> exists a, m = inr a /\ f a = inr b.
Proof.
  destruct m as [e | a]; simpl; split.
  - discriminate.
  - intros (a & Ha & _); discriminate.
  - intros H; exists a; auto.
  - intros (a' & Ha & H); injection Ha as <-; exact H.
Qed.

Lemma bind_inl {A B} (m : result A) (f : A -> result B) (e : exn) :
  bind m f = inl e <-> m = inl e \/ exists a, m = inr a /\ f a = inl e.
Proof.
  destruct m as [e' | a]; simpl; split.
  - intros H; left; injection H as ->; reflexivity.
  - intros [H | (a & Ha & _)]; [injection H as ->; reflexivity | discriminate].
  - intros H; right; exists a; auto.
  - intros [H | (a' & Ha & H)]; [discriminate |].
    injection Ha as <-; exact H.
Qed.

Lemma result_cases {A} (m : result A) : raises m \/ exists a, m = inr a.
Proof. destruct m as [e | a]; [left; exists e | right; exists a]; reflexivity. Qed.

Lemma raises_bind_l {A B} (m : result A) (f : A -> result B) :
  raises m -> raises (bind m f).
Proof. intros [e ->]; exists e; reflexivity. Qed.

Lemma mapM_inr {A B} (f : A -> result B) (l : list A) (bs : list B) :
  mapM f l = inr bs <-> Forall2 (fun a b => f a = inr b) l bs.
Proof.
  revert bs; induction l as [| a l IH]; intros bs; simpl.
  - split.
    + intros H; injection H as <-; constructor.
    + intros H; inversion H; reflexivity.
  - rewrite bind_inr; split.
    + intros (b & Hb & H).
      apply bind_inr in H as (bs' & Hbs & H).
      injection H as <-; constructor; [exact Hb | apply IH, Hbs].
    + intros H; inversion H as [| a' b l' bs' Hb Hbs]; subst.
      exists b; split; [exact Hb |].
      apply bind_inr; exists bs'; split; [apply IH, Hbs | reflexivity].
Qed.

Lemma mapM_raises {A B} (f : A -> result B) (l : list A) (a : A) :
  In a l -> raises (f a) -> raises (mapM f l).
Proof.
  induction l as [| x l IH]; simpl; [tauto |].
  intros [-> | Hin] Ha.
  - apply raises_bind_l, Ha.
  - destruct (f x) as [e | b]; simpl; [exists e; reflexivity |].
    apply raises_bind_l, IH; assumption.
Qed.

Lemma mapM_total {A B} (f : A -> result B) (l : list A) :
  (forall a, In a l -> exists b, f a = inr b) -> exists bs, mapM f l = inr bs.
Proof.
  induction l as [| x l IH]; simpl; intros H.
  - exists []; reflexivity.
  - destruct (H x (or_introl eq_refl)) as (b & ->).
    destruct IH as (bs & ->); [intros a Ha; apply H; right; exact Ha |].
    exists (b :: bs); reflexivity.
Qed.

Lemma Forall2_length_eq {A B} (R : A -> B -> Prop) l l' :
  Forall2 R l l' -> length l = length l'.
Proof. induction 1; simpl; congruence. Qed.

Lemma Forall2_In_r {A B} (R : A -> B -> Prop) l l' b :
  Forall2 R l l' -> In b l' -> exists a, In a l /\ R a b.
Proof.
  induction 1 as [| a b' l l' Hab _ IH]; simpl; [tauto |].
  intros [<- | Hin].
  - exists a; auto.
  - destruct (IH Hin) as (a' & Ha' & HR); exists a'; auto.
Qed.

Lemma Forall2_In_l {A B} (R : A -> B -> Prop) l l' a :
  Forall2 R l l' -> In a l -> exists b, In b l' /\ R a b.
Proof.
  induction 1 as [| a' b l l' Hab _ IH]; simpl; [tauto |].
  intros [<- | Hin].
  - exists b; auto.
  - destruct (IH Hin) as (b' & Hb' & HR); exists b'; auto.
Qed.

(** ** Stops, edges and adjacency *)

Lemma mem_In (s : StopId) (l : list StopId) : mem s l = true <-> In s l.
Proof.
  unfold mem; rewrite existsb_exists; split.
  - intros (x & Hx & Heq); apply String.eqb_eq in Heq; subst; exact Hx.
  - intros H; exists s; split; [exact H | apply String.eqb_refl].
Qed.

Lemma mem_not_In (s : StopId) (l : list StopId) : mem s l = false <-> ~ In s l.
Proof.
  rewrite <- mem_In; destruct (mem s l); split; congruence.
Qed.

Lemma joins_sym (a b : StopId) (e : Edge) : joins a b e = joins b a e.
Proof. unfold joins; apply orb_comm. Qed.

Lemma adjacent_sym g a b : adjacent g a b -> adjacent g b a.
Proof. intros (e & He & Hj); exists e; rewrite joins_sym; auto. Qed.

Lemma adjacent_parallel g a b :
  adjacent g a b <-> parallel_edges g a b <> [].
Proof.
  unfold adjacent, parallel_edges; split.
  - intros (e & He & Hj) Hnil.
    assert (Hin : In e (filter (joins a b) (edges g)))
      by (apply filter_In; auto).
    rewrite Hnil in Hin; exact Hin.
  - destruct (filter (joins a b) (edges g)) as [| e es] eqn:Hf; [congruence |].
    intros _; exists e; apply filter_In; rewrite Hf; left; reflexivity.
Qed.

Lemma neighbors_adjacent g a b : In b (neighbors g a) <-> adjacent g a b.
Proof.
  unfold neighbors, adjacent, joins; rewrite in_flat_map.
  split; intros (e & He & H); exists e; (split; [exact He |]).
  - destruct (String.eqb_spec (u_of e) a) as [Hu | Hu].
    + destruct H as [<- | []]; rewrite String.eqb_refl; reflexivity.
    + destruct (String.eqb_spec (v_of e) a) as [Hv | Hv]; [| destruct H].
      destruct H as [<- | []]; rewrite String.eqb_refl, orb_true_r; reflexivity.
  - destruct (String.eqb_spec (u_of e) a) as [Hu | Hu]; simpl in H.
    + apply orb_true_iff in H as [H | H].
      * apply String.eqb_eq in H; left; exact H.
      * apply andb_true_iff in H as [H H'].
        apply String.eqb_eq in H; apply String.eqb_eq in H'.
        left; congruence.
    + apply andb_true_iff in H as [Hb Ha].
      rewrite Ha; apply String.eqb_eq in Hb; left; exact Hb.
Qed.

Lemma adjacent_nodes g a b :
  adjacent g a b -> In a (graph_nodes g) /\ In b (graph_nodes g).
Proof.
  intros (e & He & Hj); unfold graph_nodes.
  assert (Hends : In (u_of e) (flat_map (fun e => [u_of e; v_of e]) (edges g))
                  /\ In (v_of e) (flat_map (fun e => [u_of e; v_of e]) (edges g))).
  { split; apply in_flat_map; exists e; simpl; auto. }
  destruct Hends as [Hu Hv].
  unfold joins in Hj; apply orb_true_iff in Hj as [Hj | Hj];
    apply andb_true_iff in Hj as [H1 H2];
    apply String.eqb_eq in H1; apply String.eqb_eq in H2; subst;
    split; apply in_or_app; right; assumption.
Qed.

(** ** Breadth-first search *)

Ltac splits := repeat match goal with |- _ /\ _ => split end.

Lemma NoDup_app_intro {A} (l l' : list A) :
  NoDup l -> NoDup l' -> (forall x, In x l -> ~ In x l') -> NoDup (l ++ l').
Proof.
  induction l as [| x l IH]; simpl; intros Hl Hl' Hd; [exact Hl' |].
  inversion Hl as [| ? ? Hx Hl0]; subst; constructor.
  - intros Hin; apply in_app_or in Hin as [Hin | Hin]; [exact (Hx Hin) |].
    apply (Hd x); [left; reflexivity | exact Hin].
  - apply IH; auto.
Qed.

Section Search.

Variable g : MultiGraph.

(** What [visit] adds: the unseen neighbours, each once. *)
Lemma visit_spec p nbrs : forall seen seen' new,
  visit p nbrs seen = (seen', new) ->
  exists vs, new = map (fun v => v :: p) vs
    /\ seen' = rev vs ++ seen
    /\ NoDup vs
    /\ (forall v, In v vs -> In v nbrs /\ ~ In v seen)
    /\ (forall v, In v nbrs -> In v seen').
Proof.
  induction nbrs as [| v vs IH]; simpl; intros seen seen' new Hv.
  - injection Hv as <- <-; exists []; simpl; splits;
      solve [reflexivity | constructor | tauto].
  - destruct (mem v seen) eqn:Hm.
    + apply mem_In in Hm.
      destruct (IH _ _ _ Hv) as (ws & Hnew & Hseen & Hnd & Hin & Hall).
      exists ws; splits; auto.
      * intros x Hx; split; [right |]; apply Hin, Hx.
      * intros x [<- | Hx]; [| apply Hall, Hx].
        subst seen'; apply in_or_app; right; exact Hm.
    + apply mem_not_In in Hm.
      destruct (visit p vs (v :: seen)) as [s1 ps] eqn:Hrec.
      injection Hv as <- <-.
      destruct (IH _ _ _ Hrec) as (ws & Hnew & Hseen & Hnd & Hin & Hall).
      exists (v :: ws); simpl; splits.
      * rewrite Hnew; reflexivity.
      * rewrite Hseen, <- app_assoc; reflexivity.
      * constructor; [| exact Hnd].
        intros Hvw; apply Hin in Hvw as [_ Hvw]; apply Hvw; left; reflexivity.
      * intros x [<- | Hx]; split.
        -- left; reflexivity.
        -- exact Hm.
        -- right; apply Hin, Hx.
        -- intros Hs; apply Hin in Hx as [_ Hx]; apply Hx; right; exact Hs.
      * intros x [<- | Hx]; [| apply Hall, Hx].
        rewrite Hseen; apply in_or_app; right; left; reflexivity.
Qed.

(** What one level adds. *)
Lemma level_spec frontier : forall seen seen' next,
  level g frontier seen = (seen', next) ->
  seen' = rev (heads next) ++ seen
  /\ NoDup (heads next)
  /\ (forall v, In v (heads next) -> ~ In v seen)
  /\ (forall q, In q next ->
        exists p v, In p frontier /\ q = v :: p
                    /\ In v (neighbors g (hd EmptyString p)))
  /\ (forall p v, In p frontier -> In v (neighbors g (hd EmptyString p)) ->
        In v seen').
Proof.
  induction frontier as [| p ps IH]; simpl; intros seen seen' next Hl.
  - injection Hl as <- <-; simpl; splits;
      solve [reflexivity | constructor | tauto | intros q []].
  - destruct (visit p (neighbors g (hd EmptyString p)) seen) as [s1 n1] eqn:Hv.
    destruct (level g ps s1) as [s2 n2] eqn:Hrec.
    injection Hl as <- <-.
    destruct (visit_spec _ _ _ _ _ Hv) as (vs & Hn1 & Hs1 & Hnd1 & Hin1 & Hall1).
    destruct (IH _ _ _ Hrec) as (Hs2 & Hnd2 & Hfresh2 & Hfrom2 & Hall2).
    assert (Hh1 : heads n1 = vs).
    { rewrite Hn1; unfold heads; rewrite map_map; simpl; apply map_id. }
    unfold heads in *; rewrite map_app, Hh1.
    splits.
    + rewrite Hs2, Hs1, rev_app_distr, <- app_assoc; reflexivity.
    + apply NoDup_app_intro; [exact Hnd1 | exact Hnd2 |].
      intros v Hv1 Hv2; apply Hfresh2 in Hv2; apply Hv2.
      rewrite Hs1; apply in_or_app; left; apply in_rev in Hv1; exact Hv1.
    + intros v Hv' Hs; apply in_app_or in Hv' as [Hv' | Hv'].
      * apply Hin1 in Hv' as [_ Hv']; exact (Hv' Hs).
      * apply Hfresh2 in Hv'; apply Hv'.
        rewrite Hs1; apply in_or_app; right; exact Hs.
    + intros q Hq; apply in_app_or in Hq as [Hq | Hq].
      * rewrite Hn1 in Hq; apply in_map_iff in Hq as (v & <- & Hv').
        exists p, v; splits; [left; reflexivity | reflexivity | apply Hin1, Hv'].
      * destruct (Hfrom2 q Hq) as (p' & v & Hp' & -> & Hv').
        exists p', v; splits; [right; exact Hp' | reflexivity | exact Hv'].
    + intros p' v [<- | Hp'] Hv'.
      * rewrite Hs2; apply in_or_app; right; apply Hall1, Hv'.
      * apply (Hall2 p' v Hp' Hv').
Qed.

Lemma rpath_head s q : rpath g s q -> exists v q', q = v :: q'.
Proof. intros H; inversion H; eauto. Qed.

Lemma rpath_connected s q : rpath g s q -> connected g s (hd EmptyString q).
Proof.
  induction 1 as [| v u q _ IH Hadj]; simpl in *.
  - constructor.
  - econstructor; eassumption.
Qed.

Lemma chain_snoc p a b :
  chain g (p ++ [a]) -> adjacent g a b -> chain g ((p ++ [a]) ++ [b]).
Proof.
  induction p as [| x p IH]; simpl; intros Hc Hab.
  - split; [exact Hab | exact I].
  - destruct (p ++ [a]) as [| y r] eqn:Hr.
    + destruct p; discriminate.
    + destruct Hc as [Hxy Hc]; split; [exact Hxy |].
      apply IH; assumption.
Qed.

Lemma rpath_chain s q :
  rpath g s q ->
  chain g (rev q) /\ hd_error (rev q) = Some s /\ last (rev q) EmptyString = hd EmptyString q.
Proof.
  induction 1 as [| v u q _ (IHc & IHh & IHl) Hadj].
  - simpl; auto.
  - simpl in *; splits.
    + apply chain_snoc; assumption.
    + destruct (rev q ++ [u]) as [| x r]; [discriminate |]; exact IHh.
    + apply last_last.
Qed.

Lemma find_ends_at_none s t frontier :
  (forall q, In q frontier -> rpath g s q) ->
  find (ends_at t) frontier = None -> ~ In t (heads frontier).
Proof.
  intros Hp Hf Hin; unfold heads in Hin.
  apply in_map_iff in Hin as (q & Hq & Hin).
  pose proof (find_none _ _ Hf q Hin) as Hends.
  destruct (rpath_head _ _ (Hp q Hin)) as (v & q' & ->).
  simpl in *; subst v; rewrite String.eqb_refl in Hends; discriminate.
Qed.

(** A path returned by the search is a path of the graph. *)
Lemma bfs_sound s t fuel : forall seen frontier p,
  (forall q, In q frontier -> rpath g s q) ->
  bfs g t fuel seen frontier = Some p ->
  exists q, p = rev q /\ rpath g s q /\ hd EmptyString q = t.
Proof.
  induction fuel as [| fuel IH]; intros seen frontier p Hp; simpl.
  - destruct (find (ends_at t) frontier) as [q |] eqn:Hf; [| discriminate].
    intros H; injection H as <-.
    apply find_some in Hf as [Hq He]; exists q; splits; auto.
    destruct q as [| v q]; [discriminate |]; apply String.eqb_eq, He.
  - destruct (find (ends_at t) frontier) as [q |] eqn:Hf.
    + intros H; injection H as <-.
      apply find_some in Hf as [Hq He]; exists q; splits; auto.
      destruct q as [| v q]; [discriminate |]; apply String.eqb_eq, He.
    + destruct (level g frontier seen) as [seen' next] eqn:Hl.
      destruct next as [| n next]; [discriminate |].
      apply IH; intros q Hq.
      destruct (level_spec _ _ _ _ Hl) as (_ & _ & _ & Hfrom & _).
      destruct (Hfrom q Hq) as (p0 & v & Hp0 & -> & Hv).
      pose proof (Hp p0 Hp0) as Hr.
      destruct (rpath_head _ _ Hr) as (u & q' & ->).
      constructor; [exact Hr | apply neighbors_adjacent, Hv].
Qed.

(** One level keeps the invariant, as long as the target was not on the
    frontier. *)
Lemma bfs_inv_level s t seen frontier seen' next :
  bfs_inv g s t seen frontier ->
  find (ends_at t) frontier = None ->
  level g frontier seen = (seen', next) ->
  bfs_inv g s t seen' next /\ length seen' = length next + length seen.
Proof.
  intros [Hp Hs Hc Ht Hnd Hn] Hf Hl.
  destruct (level_spec _ _ _ _ Hl) as (Hseen & Hndn & Hfresh & Hfrom & Hall).
  assert (Hsub : forall x, In x seen -> In x seen').
  { intros x Hx; rewrite Hseen; apply in_or_app; right; exact Hx. }
  split; [constructor |].
  - intros q Hq; destruct (Hfrom q Hq) as (p0 & v & Hp0 & -> & Hv).
    pose proof (Hp p0 Hp0) as Hr.
    destruct (rpath_head _ _ Hr) as (u & q' & ->).
    constructor; [exact Hr | apply neighbors_adjacent, Hv].
  - auto.
  - intros u Hu; rewrite Hseen in Hu; apply in_app_or in Hu as [Hu | Hu].
    + left; apply in_rev, Hu.
    + right; destruct (Hc u Hu) as [Hh | Hcl].
      * unfold heads in Hh; apply in_map_iff in Hh as (p0 & <- & Hp0).
        intros v Hv; apply (Hall p0 v Hp0), neighbors_adjacent, Hv.
      * intros v Hv; apply Hsub, Hcl, Hv.
  - intros Hin; rewrite Hseen in Hin; apply in_app_or in Hin as [Hin | Hin].
    + apply in_rev, Hin.
    + exfalso; apply (find_ends_at_none s t frontier Hp Hf), Ht, Hin.
  - rewrite Hseen; apply NoDup_app_intro; [apply NoDup_rev, Hndn | exact Hnd |].
    intros x Hx; apply Hfresh, in_rev, Hx.
  - intros x Hx; rewrite Hseen in Hx; apply in_app_or in Hx as [Hx | Hx].
    + apply in_rev in Hx; unfold heads in Hx.
      apply in_map_iff in Hx as (q & <- & Hq).
      destruct (Hfrom q Hq) as (p0 & v & _ & -> & Hv).
      apply neighbors_adjacent, adjacent_nodes in Hv as [_ Hv]; exact Hv.
    + apply Hn, Hx.
  - rewrite Hseen, length_app, length_rev; unfold heads.
    rewrite length_map; reflexivity.
Qed.

(** When no level adds a stop, every stop connected to the source has been
    seen. *)
Lemma closed_connected s seen t :
  In s seen ->
  (forall u, In u seen -> forall v, adjacent g u v -> In v seen) ->
  connected g s t -> In t seen.
Proof.
  intros Hs Hc; induction 1 as [| b c _ IH Hadj]; [exact Hs |].
  apply (Hc b IH c Hadj).
Qed.

(** The search finds every stop connected to the source, and the fuel
    suffices. *)
Lemma bfs_complete s t fuel : forall seen frontier,
  bfs_inv g s t seen frontier ->
  connected g s t ->
  length (graph_nodes g) < length seen + fuel ->
  exists p, bfs g t fuel seen frontier = Some p.
Proof.
  induction fuel as [| fuel IH]; intros seen frontier Hinv Hconn Hfuel.
  - exfalso.
    pose proof (NoDup_incl_length (inv_nodup _ _ _ _ _ Hinv)
                                  (inv_nodes _ _ _ _ _ Hinv)).
    lia.
  - simpl; destruct (find (ends_at t) frontier) as [q |] eqn:Hf; [eauto |].
    destruct (level g frontier seen) as [seen' next] eqn:Hl.
    destruct (bfs_inv_level _ _ _ _ _ _ Hinv Hf Hl) as [Hinv' Hlen].
    destruct next as [| n next].
    + exfalso.
      destruct (level_spec _ _ _ _ Hl) as (Hseen & _ & _ & _ & Hall).
      simpl in Hseen; subst seen'.
      destruct Hinv as [Hp Hs Hc Ht Hnd Hn].
      apply (find_ends_at_none s t frontier Hp Hf), Ht.
      apply (closed_connected s seen t Hs); [| exact Hconn].
      intros u Hu v Hv; destruct (Hc u Hu) as [Hh | Hcl]; [| apply Hcl, Hv].
      unfold heads in Hh; apply in_map_iff in Hh as (p0 & <- & Hp0).
      apply (Hall p0 v Hp0), neighbors_adjacent, Hv.
    + apply IH; [exact Hinv' | exact Hconn |].
      simpl in Hlen; lia.
Qed.

(** The search goes by distance: at level [d] the frontier holds paths of
    [d + 1] stops, every stop within [d] hops has been seen, and no path to
    a frontier stop is shorter.  So the path returned has the fewest
    stops. *)
Lemma bfs_shortest s t fuel : forall d seen frontier p,
  bfs_inv g s t seen frontier ->
  (forall q, In q frontier -> length q = S d) ->
  (forall q, rpath g s q -> length q <= S d -> In (hd EmptyString q) seen) ->
  (forall q, rpath g s q -> In (hd EmptyString q) (heads frontier) ->
     S d <= length q) ->
  bfs g t fuel seen frontier = Some p ->
  forall q, rpath g s q -> hd EmptyString q = t -> length p <= length q.
Proof.
  induction fuel as [| fuel IH]; intros d seen frontier p Hinv Hlen Hnear Hfar;
    simpl; destruct (find (ends_at t) frontier) as [q0 |] eqn:Hf;
    try discriminate.
  - intros H q Hq Ht; injection H as <-.
    apply find_some in Hf as [Hq0 He].
    rewrite length_rev, (Hlen q0 Hq0); apply Hfar; [exact Hq |].
    rewrite Ht; unfold heads; apply in_map_iff; exists q0; split; [| exact Hq0].
    destruct q0 as [| v q0]; [discriminate |]; apply String.eqb_eq, He.
  - intros H q Hq Ht; injection H as <-.
    apply find_some in Hf as [Hq0 He].
    rewrite length_rev, (Hlen q0 Hq0); apply Hfar; [exact Hq |].
    rewrite Ht; unfold heads; apply in_map_iff; exists q0; split; [| exact Hq0].
    destruct q0 as [| v q0]; [discriminate |]; apply String.eqb_eq, He.
  - destruct (level g frontier seen) as [seen' next] eqn:Hl.
    destruct (bfs_inv_level _ _ _ _ _ _ Hinv Hf Hl) as [Hinv' _].
    destruct (level_spec _ _ _ _ Hl) as (Hseen & _ & Hfresh & Hfrom & Hall).
    destruct next as [| n next]; [discriminate |].
    assert (Hsub : forall x, In x seen -> In x seen').
    { intros x Hx; rewrite Hseen; apply in_or_app; right; exact Hx. }
    clear Hseen.
    assert (Hnear' : forall q, rpath g s q -> length q <= S (S d) ->
                               In (hd EmptyString q) seen').
    { intros q Hq Hle; inversion Hq as [| v u q' Hq' Hadj]; subst; simpl.
      - apply Hsub, (inv_source _ _ _ _ _ Hinv).
      - assert (Hu : In u seen) by (apply (Hnear _ Hq'); simpl in *; lia).
        destruct (inv_closed _ _ _ _ _ Hinv u Hu) as [Hh | Hcl].
        + unfold heads in Hh; apply in_map_iff in Hh as (p0 & Hp0 & Hin0).
          apply (Hall p0 v Hin0); rewrite Hp0; apply neighbors_adjacent, Hadj.
        + apply Hsub, Hcl, Hadj. }
    apply (IH (S d)); auto.
    + intros q Hq; destruct (Hfrom q Hq) as (p0 & v & Hp0 & -> & _).
      simpl; rewrite (Hlen p0 Hp0); reflexivity.
    + intros q Hq Hin.
      destruct (Nat.le_gt_cases (S (S d)) (length q)) as [Hle | Hgt];
        [exact Hle |].
      exfalso; apply (Hfresh _ Hin), (Hnear q Hq); lia.
Qed.

Lemma bfs_inv_start s t : In s (graph_nodes g) -> bfs_inv g s t [s] [[s]].
Proof.
  intros Hs; constructor; simpl.
  - intros q [<- | []]; constructor.
  - auto.
  - intros u [<- | []]; auto.
  - intros [<- | []]; auto.
  - constructor; [intros [] | constructor].
  - intros x [<- | []]; exact Hs.
Qed.

(** [shortest_path] returns a path of the graph from source to target. *)
Lemma shortest_path_sound s t p :
  shortest_path g s t = inr p ->
  chain g p /\ hd_error p = Some s /\ last p EmptyString = t /\ connected g s t.
Proof.
  unfold shortest_path.
  destruct (has_node g s && has_node g t); [| discriminate].
  destruct (bfs g t (length (graph_nodes g)) [s] [[s]]) as [p' |] eqn:Hb;
    [| discriminate].
  intros H; injection H as <-.
  apply (bfs_sound s) in Hb as (q & -> & Hr & Hh).
  - destruct (rpath_chain _ _ Hr) as (Hc & Hhd & Hl).
    splits; auto; [congruence |].
    rewrite <- Hh; apply rpath_connected, Hr.
  - intros q [<- | []]; constructor.
Qed.

Lemma chain_snoc_inv l u v :
  chain g ((l ++ [u]) ++ [v]) -> chain g (l ++ [u]) /\ adjacent g u v.
Proof.
  induction l as [| x l IH]; simpl.
  - intros [H _]; auto.
  - destruct (l ++ [u]) as [| y r] eqn:Hr; [destruct l; discriminate |].
    simpl; intros [Hxy Hc]; destruct (IH Hc) as [Hc' Huv]; auto.
Qed.

Lemma chain_rpath q :
  q <> [] -> chain g (rev q) -> rpath g (last q EmptyString) q.
Proof.
  induction q as [| v [| u q] IH]; intros Hne Hc; [congruence | constructor |].
  change (rev (v :: u :: q)) with ((rev q ++ [u]) ++ [v]) in Hc.
  apply chain_snoc_inv in Hc as [Hc Huv].
  change (last (v :: u :: q) EmptyString) with (last (u :: q) EmptyString).
  constructor; [apply IH; [discriminate | exact Hc] | exact Huv].
Qed.

Lemma hd_rev (p : list StopId) :
  hd EmptyString (rev p) = last p EmptyString.
Proof.
  induction p as [| a p IH] using rev_ind; [reflexivity |].
  rewrite rev_app_distr, last_last; reflexivity.
Qed.

(** No path of the graph from source to target has fewer stops than the
    one returned. *)
Lemma shortest_path_shortest s t p :
  shortest_path g s t = inr p ->
  forall p', chain g p' -> hd_error p' = Some s -> last p' EmptyString = t ->
    length p <= length p'.
Proof.
  unfold shortest_path.
  destruct (has_node g s && has_node g t) eqn:Hn; [| discriminate].
  apply andb_true_iff in Hn as [Hs _].
  destruct (bfs g t (length (graph_nodes g)) [s] [[s]]) as [p0 |] eqn:Hb;
    [| discriminate].
  intros H p' Hc Hh Hl; injection H as <-.
  rewrite <- (length_rev p').
  assert (Hne : rev p' <> []).
  { destruct p' as [| a p']; [discriminate |].
    simpl; intros Hnil; apply app_eq_nil in Hnil as [_ Hnil]; discriminate. }
  assert (Hr : rpath g s (rev p')).
  { replace s with (last (rev p') EmptyString).
    - apply chain_rpath; [exact Hne | rewrite rev_involutive; exact Hc].
    - rewrite <- hd_rev, rev_involutive.
      destruct p' as [| a p']; [discriminate |].
      injection Hh as ->; reflexivity. }
  apply (bfs_shortest s t (length (graph_nodes g)) 0 [s] [[s]] p0
           (bfs_inv_start s t (proj1 (mem_In _ _) Hs))).
  - intros q [<- | []]; reflexivity.
  - intros q Hq Hle; inversion Hq as [| v u q' Hq' Hadj]; subst; simpl in *;
      [left; reflexivity | lia].
  - intros q Hq _; inversion Hq; simpl; lia.
  - exact Hb.
  - exact Hr.
  - rewrite hd_rev; exact Hl.
Qed.

(** [shortest_path] finds a path between any two connected stops. *)
Lemma shortest_path_complete s t :
  has_node g s = true -> has_node g t = true -> connected g s t ->
  exists p, shortest_path g s t = inr p.
Proof.
  intros Hs Ht Hc; unfold shortest_path; rewrite Hs, Ht; simpl.
  destruct (bfs_complete s t (length (graph_nodes g)) [s] [[s]]) as (p & ->).
  - apply bfs_inv_start, mem_In, Hs.
  - exact Hc.
  - simpl; lia.
  - eauto.
Qed.

Lemma shortest_path_disconnected s t :
  ~ connected g s t ->
  shortest_path g s t = inl NodeNotFound
  \/ shortest_path g s t = inl NetworkXNoPath.
Proof.
  intros Hn; destruct (shortest_path g s t) as [e | p] eqn:Hsp.
  - unfold shortest_path in Hsp.
    destruct (has_node g s && has_node g t);
      [| left; injection Hsp as <-; reflexivity].
    destruct (bfs g t (length (graph_nodes g)) [s] [[s]]); [discriminate |].
    right; injection Hsp as <-; reflexivity.
  - exfalso; apply Hn, (shortest_path_sound s t p Hsp).
Qed.

Lemma shortest_path_same s :
  has_node g s = true -> shortest_path g s s = inr [s].
Proof.
  intros Hs; unfold shortest_path; rewrite Hs; simpl.
  destruct (length (graph_nodes g)); simpl; rewrite String.eqb_refl;
    reflexivity.
Qed.

End Search.

(** ** The walking-distance filter *)

Lemma within_walk_In distance point max_walk stops s :
  In s (within_walk distance point max_walk stops)
  <-> In s stops /\ (distance point s <= inject_Z max_walk)%Q.
Proof.
  unfold within_walk; rewrite filter_In, Qle_bool_iff; reflexivity.
Qed.

(** The filter at its boundary: a stop at exactly [max_walk] is kept, a
    stop farther away is dropped. *)
Lemma walking_filter_boundary distance point max_walk stops s :
  In s stops ->
  (In s (within_walk distance point max_walk stops)
   <-> (distance point s <= inject_Z max_walk)%Q)
  /\ ((distance point s == inject_Z max_walk)%Q ->
      In s (within_walk distance point max_walk stops))
  /\ ((inject_Z max_walk < distance point s)%Q ->
      ~ In s (within_walk distance point max_walk stops)).
Proof.
  intros Hs; splits.
  - rewrite within_walk_In; tauto.
  - intros Heq; apply within_walk_In; split; [exact Hs |].
    rewrite Heq; apply Qle_refl.
  - intros Hlt Hin; apply within_walk_In in Hin as [_ Hle].
    exact (Qlt_not_le _ _ Hlt Hle).
Qed.

(** ** The fewest-changes filter *)

Lemma min_by_len_spec {A} (options : list (list A)) :
  options <> [] ->
  exists m, min_by_len options = inr m
    /\ In m options
    /\ (forall t, In t options -> length m <= length t).
Proof.
  induction options as [| t rest IH]; [congruence |]; intros _; simpl.
  destruct rest as [| t' rest'].
  - exists t; simpl; splits; [reflexivity | left; reflexivity |].
    intros x [<- | []]; constructor.
  - destruct IH as (m & -> & Hin & Hmin); [discriminate |].
    destruct (Nat.ltb_spec (length m) (length t)) as [Hlt | Hge].
    + exists m; splits; [reflexivity | right; exact Hin |].
      intros x [<- | Hx]; [lia | apply Hmin, Hx].
    + exists t; splits; [reflexivity | left; reflexivity |].
      intros x [<- | Hx]; [lia |].
      specialize (Hmin x Hx); lia.
Qed.

Lemma min_by_len_nil {A} : @min_by_len A [] = inl ValueError.
Proof. reflexivity. Qed.

Lemma count_occ_filter {A} (dec : forall x y : A, {x = y} + {x <> y})
      (f : A -> bool) (l : list A) (x : A) :
  count_occ dec (filter f l) x = if f x then count_occ dec l x else 0.
Proof.
  induction l as [| y l IH]; simpl.
  - destruct (f x); reflexivity.
  - destruct (f y) eqn:Hy; simpl; destruct (dec y x) as [-> | Hne];
      rewrite IH; try reflexivity.
    + rewrite Hy; reflexivity.
    + rewrite Hy; reflexivity.
Qed.

(** The aggregator is a filter on the least length. *)
Lemma keep_fewest_filter (options : list (list StopId)) :
  options <> [] ->
  exists m,
    keep_fewest options = inr (filter (fun t => length t =? m) options)
    /\ (exists t, In t options /\ length t = m)
    /\ (forall t, In t options -> m <= length t).
Proof.
  intros Hne.
  destruct (min_by_len_spec options Hne) as (s & Hs & Hin & Hmin).
  exists (length s); unfold keep_fewest; rewrite Hs; simpl; splits.
  - reflexivity.
  - exists s; auto.
  - exact Hmin.
Qed.

(** On a non-empty list the kept paths are the paths of least length, each
    as often as it occurs and in the same order. *)
Lemma keep_fewest_exact (options : list (list StopId)) :
  options <> [] ->
  exists kept m,
    keep_fewest options = inr kept
    /\ (exists t, In t options /\ length t = m)
    /\ (forall t, In t options -> m <= length t)
    /\ kept = filter (fun t => length t =? m) options
    /\ (forall t, length t = m ->
          count_occ (list_eq_dec string_dec) kept t
          = count_occ (list_eq_dec string_dec) options t)
    /\ (forall t, m < length t -> ~ In t kept).
Proof.
  intros Hne.
  destruct (keep_fewest_filter options Hne) as (m & Hk & Hex & Hmin).
  exists (filter (fun t => length t =? m) options), m; splits; auto.
  - intros t Ht; rewrite count_occ_filter; cbv beta.
    rewrite Ht, Nat.eqb_refl; reflexivity.
  - intros t Hlt Hin; apply filter_In in Hin as [_ Hin].
    apply Nat.eqb_eq in Hin; lia.
Qed.

Lemma keep_fewest_nil : keep_fewest [] = inl ValueError.
Proof. reflexivity. Qed.

Lemma keep_fewest_inr options kept :
  keep_fewest options = inr kept ->
  options <> [] /\ kept <> [] /\ incl kept options.
Proof.
  intros Hk.
  assert (Hne : options <> []) by (intros ->; discriminate).
  destruct (keep_fewest_filter options Hne) as (m & Hk' & (s & Hs & Hm) & _).
  rewrite Hk in Hk'; injection Hk' as Hf; splits.
  - exact Hne.
  - intros Hnil.
    assert (Hin : In s kept).
    { rewrite Hf; apply filter_In; split; [exact Hs | apply Nat.eqb_eq, Hm]. }
    rewrite Hnil in Hin; exact Hin.
  - rewrite Hf; intros x Hx; apply filter_In in Hx as [Hx _]; exact Hx.
Qed.

(** ** Decomposition into ride segments *)

Section Decompose.

Variable dl : data_loader.

Lemma edges_between_inr a b es :
  edges_between (GRAPH dl) a b = inr es
  <-> es = parallel_edges (GRAPH dl) a b /\ es <> [].
Proof.
  unfold edges_between.
  destruct (parallel_edges (GRAPH dl) a b) as [| e es']; simpl; split.
  - discriminate.
  - intros [-> H]; congruence.
  - intros H; injection H as <-; split; [reflexivity | discriminate].
  - intros [-> _]; reflexivity.
Qed.

Lemma stop_dict_inr s v :
  stop_dict dl s = inr v
  <-> exists c, assoc s (STOP_COORDS dl) = Some c
        /\ v = VDict [("id", VStr s); ("lat", VNum (fst c));
                      ("lng", VNum (snd c))].
Proof.
  unfold stop_dict, getitem.
  destruct (assoc s (STOP_COORDS dl)) as [c |]; simpl; split.
  - intros H; injection H as <-; eauto.
  - intros (c' & Hc & ->); injection Hc as <-; reflexivity.
  - discriminate.
  - intros (c' & Hc & _); discriminate.
Qed.

(** One step of the loop, read backwards. *)
Lemma segments_cons a b rest segs :
  segments dl a (b :: rest) = inr segs
  <-> exists ca cb segs',
        parallel_edges (GRAPH dl) a b <> []
        /\ assoc a (STOP_COORDS dl) = Some ca
        /\ assoc b (STOP_COORDS dl) = Some cb
        /\ segments dl b rest = inr segs'
        /\ segs =
           VDict [("busses",
                   VList (map VStr (map line (parallel_edges (GRAPH dl) a b))));
                  ("board", VDict [("id", VStr a); ("lat", VNum (fst ca));
                                   ("lng", VNum (snd ca))]);
                  ("deboard", VDict [("id", VStr b); ("lat", VNum (fst cb));
                                     ("lng", VNum (snd cb))])]
           :: segs'.
Proof.
  simpl; rewrite bind_inr; split.
  - intros (es & Hes & H).
    apply edges_between_inr in Hes as [-> Hne].
    apply bind_inr in H as (vb & Hb & H).
    apply bind_inr in H as (vd & Hd & H).
    apply bind_inr in H as (segs' & Hsegs & H).
    apply stop_dict_inr in Hb as (ca & Hca & ->).
    apply stop_dict_inr in Hd as (cb & Hcb & ->).
    injection H as <-; exists ca, cb, segs'; splits; auto.
  - intros (ca & cb & segs' & Hne & Hca & Hcb & Hsegs & ->).
    exists (parallel_edges (GRAPH dl) a b); split.
    + apply edges_between_inr; auto.
    + unfold stop_dict, getitem; rewrite Hca, Hcb; simpl.
      rewrite Hsegs; reflexivity.
Qed.

Lemma strings_of_map l : strings_of (VList (map VStr l)) = l.
Proof.
  simpl; induction l as [| x l IH]; simpl; [reflexivity |].
  rewrite IH; reflexivity.
Qed.

(** Decomposition succeeds on a transit path whose stops have coordinates. *)
Lemma segments_total a rest :
  chain (GRAPH dl) (a :: rest) -> coords_cover dl (a :: rest) ->
  exists segs, segments dl a rest = inr segs.
Proof.
  revert a; induction rest as [| b rest IH]; intros a Hc Hcov.
  - exists []; reflexivity.
  - destruct Hc as [Hab Hc].
    destruct (IH b Hc) as (segs' & Hsegs).
    { intros s Hs; apply Hcov; right; exact Hs. }
    destruct (Hcov a) as (ca & Hca); [left; reflexivity |].
    destruct (Hcov b) as (cb & Hcb); [right; left; reflexivity |].
    eexists; apply segments_cons.
    exists ca, cb, segs'; splits; eauto.
    apply adjacent_parallel, Hab.
Qed.

Lemma segments_length a rest segs :
  segments dl a rest = inr segs -> length segs = length rest.
Proof.
  revert a segs; induction rest as [| b rest IH]; intros a segs H.
  - injection H as <-; reflexivity.
  - apply segments_cons in H as (ca & cb & segs' & _ & _ & _ & Hs & ->).
    simpl; f_equal; apply (IH b), Hs.
Qed.

(** The segment of hop [i] carries the lines of all parallel edges of that
    hop. *)
Lemma segments_lines a rest segs :
  segments dl a rest = inr segs ->
  forall i x y,
    nth_error (a :: rest) i = Some x -> nth_error (a :: rest) (S i) = Some y ->
    exists seg, nth_error segs i = Some seg
      /\ lines_under "busses" seg
         = map line (parallel_edges (GRAPH dl) x y)
      /\ parallel_edges (GRAPH dl) x y <> [].
Proof.
  revert a segs; induction rest as [| b rest IH]; intros a segs H i x y Hx Hy.
  - destruct i as [| [| i]]; discriminate.
  - apply segments_cons in H as (ca & cb & segs' & Hne & _ & _ & Hs & ->).
    destruct i as [| i].
    + simpl in Hx, Hy; injection Hx as <-; injection Hy as <-.
      eexists; splits; [reflexivity | | exact Hne].
      unfold lines_under, dict_get; cbn [assoc String.eqb Ascii.eqb Bool.eqb].
      apply strings_of_map.
    + apply (IH b segs' Hs i x y Hx Hy).
Qed.

(** Consecutive segments share their stop; every stop dict carries the
    looked-up coordinate. *)
Lemma segments_board_first a rest segs seg :
  segments dl a rest = inr segs -> hd_error segs = Some seg ->
  field "board" "id" seg = Some (VStr a).
Proof.
  destruct rest as [| b rest]; intros H Hh.
  - injection H as <-; discriminate.
  - apply segments_cons in H as (ca & cb & segs' & _ & _ & _ & _ & ->).
    injection Hh as <-; reflexivity.
Qed.

Lemma segments_deboard_last a rest segs :
  segments dl a rest = inr segs -> rest <> [] ->
  field "deboard" "id" (last segs (VStr EmptyString)) = Some (VStr (last rest EmptyString)).
Proof.
  revert a segs; induction rest as [| b rest IH]; intros a segs H Hne;
    [congruence |].
  apply segments_cons in H as (ca & cb & segs' & _ & _ & _ & Hs & ->).
  destruct rest as [| c rest].
  - injection Hs as <-; reflexivity.
  - specialize (IH b segs' Hs); apply segments_length in Hs.
    destruct segs' as [| s1 segs']; [discriminate |].
    apply IH; discriminate.
Qed.

Lemma segments_linked a rest segs :
  segments dl a rest = inr segs ->
  forall i s1 s2,
    nth_error segs i = Some s1 -> nth_error segs (S i) = Some s2 ->
    exists b, nth_error rest i = Some b
      /\ field "deboard" "id" s1 = Some (VStr b)
      /\ field "board" "id" s2 = Some (VStr b).
Proof.
  revert a segs; induction rest as [| b rest IH]; intros a segs H i s1 s2 H1 H2.
  - injection H as <-; destruct i; discriminate.
  - apply segments_cons in H as (ca & cb & segs' & _ & _ & _ & Hs & ->).
    destruct i as [| i].
    + simpl in H1, H2; injection H1 as <-.
      exists b; splits; [reflexivity | reflexivity |].
      apply (segments_board_first b rest segs' s2 Hs).
      destruct segs'; [discriminate | exact H2].
    + apply (IH b segs' Hs i s1 s2 H1 H2).
Qed.

Lemma segments_coords a rest segs seg :
  segments dl a rest = inr segs -> In seg segs ->
  forall side, side = "board" \/ side = "deboard" ->
  exists s c, In s (a :: rest)
    /\ field side "id" seg = Some (VStr s)
    /\ assoc s (STOP_COORDS dl) = Some c
    /\ field side "lat" seg = Some (VNum (fst c))
    /\ field side "lng" seg = Some (VNum (snd c)).
Proof.
  revert a segs; induction rest as [| b rest IH]; intros a segs H Hin side Hside.
  - injection H as <-; destruct Hin.
  - apply segments_cons in H as (ca & cb & segs' & _ & Hca & Hcb & Hs & ->).
    destruct Hin as [<- | Hin].
    + destruct Hside as [-> | ->].
      * exists a, ca; splits; auto; left; reflexivity.
      * exists b, cb; splits; auto; right; left; reflexivity.
    + destruct (IH b segs' Hs Hin side Hside) as (s & c & Hsin & Hrest).
      exists s, c; split; [right; exact Hsin | exact Hrest].
Qed.

Lemma segments_shape a rest segs :
  segments dl a rest = inr segs -> Forall (is_segment "busses") segs.
Proof.
  revert a segs; induction rest as [| b rest IH]; intros a segs H.
  - injection H as <-; constructor.
  - apply segments_cons in H as (ca & cb & segs' & _ & _ & _ & Hs & ->).
    constructor; [| apply (IH b), Hs].
    eexists _, _, _; splits; [reflexivity | |]; eexists _, _, _; reflexivity.
Qed.

Lemma parse_route_inr path segs :
  parse_route dl path = inr segs
  <-> exists a rest, path = a :: rest /\ segments dl a rest = inr segs.
Proof.
  destruct path as [| a rest]; simpl; split.
  - discriminate.
  - intros (a & rest & H & _); discriminate.
  - eauto.
  - intros (a' & rest' & H & Hs); injection H as <- <-; exact Hs.
Qed.

End Decompose.

(** C5: a transit path of [n] stops (consecutive stops adjacent, every stop
    with a coordinate) decomposes into exactly [n - 1] ride segments; the
    segment of a hop carries the line of every parallel edge of that hop, so
    its line collection is, as a set, the set of line identifiers of the
    hop, and it is not empty.  A single-stop path gives no segment. *)
Theorem parse_route_decomposes (dl : data_loader) :
  (forall s, parse_route dl [s] = inr [])
  /\ (forall path,
        path <> [] -> chain (GRAPH dl) path -> coords_cover dl path ->
        exists segs,
          parse_route dl path = inr segs
          /\ length segs = length path - 1
          /\ forall i x y,
               nth_error path i = Some x -> nth_error path (S i) = Some y ->
               exists seg,
                 nth_error segs i = Some seg
                 /\ lines_under "busses" seg
                    = map line (parallel_edges (GRAPH dl) x y)
                 /\ (forall l, In l (lines_under "busses" seg)
                       <-> exists e, In e (edges (GRAPH dl))
                                     /\ joins x y e = true /\ line e = l)
                 /\ lines_under "busses" seg <> []).
Proof.
  split; [reflexivity |].
  intros [| a rest] Hne Hc Hcov; [congruence |].
  destruct (segments_total dl a rest Hc Hcov) as (segs & Hs).
  exists segs; splits.
  - exact Hs.
  - rewrite (segments_length dl a rest segs Hs); simpl; lia.
  - intros i x y Hx Hy.
    destruct (segments_lines dl a rest segs Hs i x y Hx Hy)
      as (seg & Hseg & Hl & Hnil).
    exists seg; splits; auto.
    + intros l; rewrite Hl, in_map_iff; unfold parallel_edges.
      split; intros (e & H1 & H2); exists e.
      * apply filter_In in H2 as [H2 H3]; auto.
      * destruct H2 as [H2 H3]; split; [exact H3 |].
        apply filter_In; auto.
    + rewrite Hl; intros Hm; apply map_eq_nil in Hm; exact (Hnil Hm).
Qed.

Lemma parse_route_decomposes_witness :
  exists segs,
    parse_route town ["s0"; "s1"; "s2"] = inr segs
    /\ length segs = 2
    /\ forall i x y,
         nth_error ["s0"; "s1"; "s2"] i = Some x ->
         nth_error ["s0"; "s1"; "s2"] (S i) = Some y ->
         exists seg,
           nth_error segs i = Some seg
           /\ lines_under "busses" seg
              = map line (parallel_edges (GRAPH town) x y)
           /\ (forall l, In l (lines_under "busses" seg)
                 <-> exists e, In e (edges (GRAPH town))
                               /\ joins x y e = true /\ line e = l)
           /\ lines_under "busses" seg <> [].
Proof.
  apply (proj2 (parse_route_decomposes town) ["s0"; "s1"; "s2"]).
  - discriminate.
  - simpl; splits; try exact I; apply adjacent_parallel; vm_compute;
      discriminate.
  - intros s [<- | [<- | [<- | []]]]; eexists; vm_compute; reflexivity.
Defined.

(** C10: the segments of a transit path of at least two stops chain: the
    first boards at the first stop, the last deboards at the last stop,
    every segment deboards where the next one boards, and the lat and lng of
    every board and deboard entry are the coordinate that [STOP_COORDS]
    holds for the entry's stop id. *)
Theorem parse_route_chains (dl : data_loader) (path : list StopId) :
  2 <= length path -> chain (GRAPH dl) path -> coords_cover dl path ->
  exists segs,
    parse_route dl path = inr segs
    /\ field "board" "id" (hd (VStr EmptyString) segs) = Some (VStr (hd EmptyString path))
    /\ field "deboard" "id" (last segs (VStr EmptyString)) = Some (VStr (last path EmptyString))
    /\ (forall i s1 s2,
          nth_error segs i = Some s1 -> nth_error segs (S i) = Some s2 ->
          exists b, field "deboard" "id" s1 = Some (VStr b)
                    /\ field "board" "id" s2 = Some (VStr b))
    /\ (forall seg side,
          In seg segs -> side = "board" \/ side = "deboard" ->
          exists s c,
            field side "id" seg = Some (VStr s)
            /\ assoc s (STOP_COORDS dl) = Some c
            /\ field side "lat" seg = Some (VNum (fst c))
            /\ field side "lng" seg = Some (VNum (snd c))).
Proof.
  destruct path as [| a [| b rest]]; simpl; try lia; intros _ Hc Hcov.
  destruct (segments_total dl a (b :: rest) Hc Hcov) as (segs & Hs).
  exists segs; splits.
  - exact Hs.
  - pose proof (segments_length dl _ _ _ Hs) as Hlen.
    destruct segs as [| s0 segs]; [discriminate |].
    apply (segments_board_first dl a (b :: rest) (s0 :: segs) s0 Hs).
    reflexivity.
  - rewrite (segments_deboard_last dl a (b :: rest) segs Hs); [| discriminate].
    reflexivity.
  - intros i s1 s2 H1 H2.
    destruct (segments_linked dl _ _ _ Hs i s1 s2 H1 H2) as (x & _ & Hd & Hb).
    exists x; auto.
  - intros seg side Hin Hside.
    destruct (segments_coords dl _ _ _ seg Hs Hin side Hside)
      as (s & c & _ & Hrest).
    exists s, c; exact Hrest.
Qed.

Lemma parse_route_chains_witness :
  exists segs,
    parse_route town ["s0"; "s1"; "s2"] = inr segs
    /\ field "board" "id" (hd (VStr EmptyString) segs) = Some (VStr "s0")
    /\ field "deboard" "id" (last segs (VStr EmptyString)) = Some (VStr "s2")
    /\ (forall i s1 s2,
          nth_error segs i = Some s1 -> nth_error segs (S i) = Some s2 ->
          exists b, field "deboard" "id" s1 = Some (VStr b)
                    /\ field "board" "id" s2 = Some (VStr b))
    /\ (forall seg side,
          In seg segs -> side = "board" \/ side = "deboard" ->
          exists s c,
            field side "id" seg = Some (VStr s)
            /\ assoc s (STOP_COORDS town) = Some c
            /\ field side "lat" seg = Some (VNum (fst c))
            /\ field side "lng" seg = Some (VNum (snd c))).
Proof.
  apply (parse_route_chains town ["s0"; "s1"; "s2"]).
  - simpl; lia.
  - simpl; splits; try exact I; apply adjacent_parallel; vm_compute;
      discriminate.
  - intros s [<- | [<- | [<- | []]]]; eexists; vm_compute; reflexivity.
Defined.

(** ** The planner *)

Section Planning.

Variable distance : Coord -> Coord -> Q.
Variable dl : data_loader.

(** [find_routes] step by step. *)
Lemma find_routes_inr origin destination max_walk js :
  find_routes distance dl origin destination max_walk = inr js
  <-> exists pairs options kept,
        candidate_pairs distance dl origin destination max_walk = inr pairs
        /\ mapM (pair_transits dl) pairs = inr options
        /\ keep_fewest options = inr kept
        /\ mapM (parse_route dl) kept = inr js.
Proof.
  unfold find_routes, candidate_pairs.
  destruct (k_nearest_stop_coords dl (fst origin) (snd origin) 10)
    as [e | os]; simpl.
  { split; [discriminate | intros (? & ? & ? & H & _); discriminate]. }
  destruct (k_nearest_stop_coords dl (fst destination) (snd destination) 10)
    as [e | ds]; simpl.
  { split; [discriminate | intros (? & ? & ? & H & _); discriminate]. }
  rewrite bind_inr; split.
  - intros (options & Ho & H).
    apply bind_inr in H as (kept & Hk & H).
    eexists _, options, kept; splits; eauto.
  - intros (pairs & options & kept & Hp & Ho & Hk & H).
    injection Hp as <-.
    exists options; split; [exact Ho |].
    apply bind_inr; exists kept; auto.
Qed.

Lemma find_routes_raises_pairs origin destination max_walk pairs :
  candidate_pairs distance dl origin destination max_walk = inr pairs ->
  raises (mapM (pair_transits dl) pairs) ->
  raises (find_routes distance dl origin destination max_walk).
Proof.
  unfold find_routes, candidate_pairs.
  destruct (k_nearest_stop_coords dl (fst origin) (snd origin) 10)
    as [e | os]; simpl; [discriminate |].
  destruct (k_nearest_stop_coords dl (fst destination) (snd destination) 10)
    as [e | ds]; simpl; [discriminate |].
  intros H; injection H as <-; apply raises_bind_l.
Qed.

Lemma find_routes_no_pairs origin destination max_walk :
  candidate_pairs distance dl origin destination max_walk = inr [] ->
  find_routes distance dl origin destination max_walk = inl ValueError.
Proof.
  unfold find_routes, candidate_pairs.
  destruct (k_nearest_stop_coords dl (fst origin) (snd origin) 10)
    as [e | os]; simpl; [discriminate |].
  destruct (k_nearest_stop_coords dl (fst destination) (snd destination) 10)
    as [e | ds]; simpl; [discriminate |].
  intros H; injection H as ->; reflexivity.
Qed.

Lemma pair_transits_inr pair p :
  pair_transits dl pair = inr p
  <-> exists so sd, stop_id dl (fst pair) = inr so
        /\ stop_id dl (snd pair) = inr sd
        /\ shortest_path (GRAPH dl) so sd = inr p.
Proof.
  unfold pair_transits, journey_transits; rewrite bind_inr; split.
  - intros (so & Hso & H); apply bind_inr in H as (sd & Hsd & H).
    apply bind_inr in H as (c & Hc & H); simpl in H; injection H as <-.
    exists so, sd; auto.
  - intros (so & sd & Hso & Hsd & Hp).
    exists so; split; [exact Hso |].
    apply bind_inr; exists sd; split; [exact Hsd |].
    rewrite Hp; reflexivity.
Qed.

(** Every journey is a list of segments keyed busses / board / deboard. *)
Lemma parse_route_shape path segs :
  parse_route dl path = inr segs -> Forall (is_segment "busses") segs.
Proof.
  intros H; apply parse_route_inr in H as (a & rest & -> & H).
  apply (segments_shape dl a rest segs H).
Qed.

End Planning.

Lemma is_segment_key key seg :
  is_segment key seg -> dict_keys seg = [key; "board"; "deboard"].
Proof. intros (l & b & d & -> & _); reflexivity. Qed.

(** C7, as the code has it: every journey that the planner returns is an
    ordered list of segments of the shape
    [{busses: [line...], board: {id, lat, lng}, deboard: {id, lat, lng}}];
    the lines of a hop sit under the key [busses]. *)
Theorem journeys_keyed_busses distance dl origin destination max_walk js :
  find_routes distance dl origin destination max_walk = inr js ->
  forall j, In j js ->
    Forall (fun seg => is_segment "busses" seg
                       /\ dict_keys seg = ["busses"; "board"; "deboard"]) j.
Proof.
  intros H j Hj.
  apply find_routes_inr in H as (pairs & options & kept & _ & _ & _ & H).
  apply mapM_inr in H.
  destruct (Forall2_In_r _ _ _ _ H Hj) as (path & _ & Hp).
  apply parse_route_shape in Hp.
  eapply Forall_impl; [| exact Hp].
  intros seg Hseg; split; [exact Hseg | apply is_segment_key, Hseg].
Qed.

Lemma journeys_keyed_busses_witness :
  Forall (fun seg => is_segment "busses" seg
                     /\ dict_keys seg = ["busses"; "board"; "deboard"])
    [VDict
       [("busses", VList [VStr "L1"; VStr "L2"]);
        ("board",
         VDict [("id", VStr "s0"); ("lat", VNum 0); ("lng", VNum 0)]);
        ("deboard",
         VDict [("id", VStr "s1"); ("lat", VNum 0); ("lng", VNum 1)])]].
Proof.
  apply (journeys_keyed_busses grid_distance town (0, 0)%Q (0, 1)%Q 0
           [[VDict
               [("busses", VList [VStr "L1"; VStr "L2"]);
                ("board",
                 VDict [("id", VStr "s0"); ("lat", VNum 0); ("lng", VNum 0)]);
                ("deboard",
                 VDict [("id", VStr "s1"); ("lat", VNum 0);
                        ("lng", VNum 1)])]]]).
  - vm_compute; reflexivity.
  - left; reflexivity.
Defined.

(** C7 with the key [lines] fails: the planner returns a journey whose segment has no
    key [lines]. *)
Lemma journeys_not_keyed_lines :
  exists js j seg,
    find_routes grid_distance town (0, 0)%Q (0, 1)%Q 0 = inr js
    /\ In j js /\ In seg j
    /\ dict_get "lines" seg = None
    /\ ~ is_segment "lines" seg.
Proof.
  eexists _, _, _; splits.
  - vm_compute; reflexivity.
  - left; reflexivity.
  - left; reflexivity.
  - reflexivity.
  - intros (l & b & d & H & _); discriminate.
Qed.

(** ** The spatial index *)

Lemma insert_by_perm key i l : Permutation (insert_by key i l) (i :: l).
Proof.
  induction l as [| j l IH]; simpl; [reflexivity |].
  destruct (Qle_bool (key i) (key j)); [reflexivity |].
  rewrite IH; apply perm_swap.
Qed.

Lemma by_distance_perm pts x :
  Permutation (by_distance pts x) (seq 0 (length pts)).
Proof.
  unfold by_distance; induction (seq 0 (length pts)) as [| i l IH]; simpl.
  - reflexivity.
  - rewrite insert_by_perm; constructor; exact IH.
Qed.

Lemma mapM_app {A B} (f : A -> result B) (l1 l2 : list A) :
  mapM f (l1 ++ l2)
  = bs1 <- mapM f l1 ;; bs2 <- mapM f l2 ;; ret (bs1 ++ bs2).
Proof.
  induction l1 as [| a l1 IH]; simpl.
  - destruct (mapM f l2); reflexivity.
  - destruct (f a) as [e | b]; simpl; [reflexivity |].
    rewrite IH; destruct (mapM f l1) as [e | bs1]; simpl; [reflexivity |].
    destruct (mapM f l2); reflexivity.
Qed.

Lemma data_at_known tree idxs :
  (forall i, In i idxs -> i < length (data tree)) ->
  exists cs, mapM (data_at tree) idxs = inr cs
    /\ length cs = length idxs /\ incl cs (data tree).
Proof.
  induction idxs as [| i idxs IH]; intros Hlt; simpl.
  - exists []; splits; [reflexivity | reflexivity | intros x []].
  - destruct IH as (cs & -> & Hlen & Hincl);
      [intros j Hj; apply Hlt; right; exact Hj |].
    unfold data_at.
    destruct (nth_error (data tree) i) as [c |] eqn:Hc.
    + exists (c :: cs); simpl; splits; [reflexivity | congruence |].
      intros x [<- | Hx]; [eapply nth_error_In, Hc | apply Hincl, Hx].
    + apply nth_error_None in Hc.
      specialize (Hlt i (or_introl eq_refl)); lia.
Qed.

Lemma by_distance_bound pts x i :
  In i (by_distance pts x) -> i < length pts.
Proof.
  intros Hi; apply (Permutation_in _ (by_distance_perm pts x)) in Hi.
  apply in_seq in Hi; lia.
Qed.

Lemma by_distance_length pts x : length (by_distance pts x) = length pts.
Proof.
  rewrite (Permutation_length (by_distance_perm pts x)); apply length_seq.
Qed.

Lemma firstn_In {A} (n : nat) (l : list A) (x : A) :
  In x (firstn n l) -> In x l.
Proof.
  intros H; rewrite <- (firstn_skipn n l); apply in_or_app; left; exact H.
Qed.

Lemma query_indexes_some tree x k :
  2 <= k ->
  query_indexes tree x k
  = inr (firstn k (by_distance (data tree) x)
         ++ repeat (length (data tree))
                   (k - length (firstn k (by_distance (data tree) x)))).
Proof. destruct k as [| [| k]]; try lia; reflexivity. Qed.

(** With at least [k] stops in the index the lookup returns [k] of them. *)
Lemma k_nearest_enough dl lat lon k :
  2 <= k -> k <= length (data (ALL_STOPS_TREE dl)) ->
  exists cs, k_nearest_stop_coords dl lat lon k = inr cs
    /\ length cs = k /\ incl cs (data (ALL_STOPS_TREE dl)).
Proof.
  intros H2 Hk; unfold k_nearest_stop_coords.
  rewrite (query_indexes_some _ _ _ H2); cbn [bind].
  set (found := firstn k (by_distance _ _)).
  assert (Hlen : length found = k).
  { unfold found; rewrite length_firstn, by_distance_length; lia. }
  rewrite Hlen, Nat.sub_diag; simpl repeat; rewrite app_nil_r.
  destruct (data_at_known (ALL_STOPS_TREE dl) found) as (cs & Hcs & Hl & Hi).
  - intros i Hi; apply (by_distance_bound _ (lat, lon)).
    unfold found in Hi; eapply firstn_In; exact Hi.
  - exists cs; splits; [exact Hcs | congruence | exact Hi].
Qed.

(** With fewer than [k] stops the padding index is looked up and the lookup
    raises. *)
Lemma k_nearest_short dl lat lon k :
  2 <= k -> length (data (ALL_STOPS_TREE dl)) < k ->
  k_nearest_stop_coords dl lat lon k = inl IndexError.
Proof.
  intros H2 Hk; unfold k_nearest_stop_coords.
  rewrite (query_indexes_some _ _ _ H2); cbn [bind].
  set (found := firstn k (by_distance _ _)).
  assert (Hlen : length found = length (data (ALL_STOPS_TREE dl))).
  { unfold found; rewrite length_firstn, by_distance_length; lia. }
  rewrite Hlen, mapM_app.
  destruct (data_at_known (ALL_STOPS_TREE dl) found) as (cs & -> & _).
  - intros i Hi; apply (by_distance_bound _ (lat, lon)).
    unfold found in Hi; eapply firstn_In; exact Hi.
  - cbn [bind].
    destruct (k - length (data (ALL_STOPS_TREE dl))) as [| m] eqn:Hm;
      [lia |].
    simpl; unfold data_at.
    replace (nth_error _ _) with (@None (Q * Q));
      [reflexivity | symmetry; apply nth_error_None; lia].
Qed.

(** C6, at a failing input: the index of [hamlet] holds three stops and ten
    are asked for; the lookup raises IndexError where the specification has it
    return the three stops. *)
Theorem k_nearest_short_index_raises :
  length (data (ALL_STOPS_TREE hamlet)) = 3
  /\ k_nearest_stop_coords hamlet 0 0 10 = inl IndexError.
Proof. split; vm_compute; reflexivity. Qed.

(** ** Path search under a cap on changes *)

Lemma journey_transits_uncapped dl s t :
  journey_transits dl s t None = shortest_path (GRAPH dl) s t.
Proof.
  unfold journey_transits; destruct (shortest_path (GRAPH dl) s t); reflexivity.
Qed.

(** For a cap other than 0 the path is dropped exactly when it has more
    changes than the cap. *)
Lemma journey_transits_capped dl s t m p :
  m <> 0%Z -> shortest_path (GRAPH dl) s t = inr p ->
  journey_transits dl s t (Some m)
  = inr (if (m <? Z.of_nat (length p) - 2)%Z then [] else p).
Proof.
  intros Hm Hp; unfold journey_transits; rewrite Hp; simpl.
  destruct (Z.eqb_spec m 0) as [-> | _]; [congruence |]; simpl.
  destruct (m <? Z.of_nat (length p) - 2)%Z; reflexivity.
Qed.

(** A cap of 0 is not applied. *)
Lemma journey_transits_cap_zero dl s t :
  journey_transits dl s t (Some 0%Z) = shortest_path (GRAPH dl) s t.
Proof.
  unfold journey_transits; destruct (shortest_path (GRAPH dl) s t); reflexivity.
Qed.

(** C3, at a failing input: s0 and s2 are connected, the path found has one
    change and the cap is 0, yet the full path is returned and not the
    empty one. *)
Theorem journey_transits_ignores_zero_cap :
  shortest_path (GRAPH town) "s0" "s2" = inr ["s0"; "s1"; "s2"]
  /\ (0 <? Z.of_nat (length ["s0"; "s1"; "s2"]) - 2)%Z = true
  /\ journey_transits town "s0" "s2" (Some 0%Z) = inr ["s0"; "s1"; "s2"].
Proof. splits; vm_compute; reflexivity. Qed.

(** ** No candidate pair, or a disconnected one *)

Lemma list_prod_nil_r {A B} (l : list A) : list_prod l (@nil B) = [].
Proof. induction l; simpl; auto. Qed.

(** When no stop is within walking distance of the origin or of the
    destination, [min] is applied to an empty list. *)
Lemma find_routes_no_walkable_stop distance dl origin destination max_walk os ds :
  k_nearest_stop_coords dl (fst origin) (snd origin) 10 = inr os ->
  k_nearest_stop_coords dl (fst destination) (snd destination) 10 = inr ds ->
  within_walk distance origin max_walk os = []
  \/ within_walk distance destination max_walk ds = [] ->
  find_routes distance dl origin destination max_walk = inl ValueError.
Proof.
  intros Ho Hd He; apply find_routes_no_pairs.
  unfold candidate_pairs; rewrite Ho, Hd; simpl.
  destruct He as [-> | ->]; [reflexivity | rewrite list_prod_nil_r; reflexivity].
Qed.

(** C2, at a failing input: no stop of [town] is within 100 m of (50, 50);
    the planner raises ValueError where the specification has it return an empty
    journey list. *)
Theorem find_routes_no_walkable_stop_raises :
  (exists os, k_nearest_stop_coords town 50 50 10 = inr os
              /\ within_walk grid_distance (50, 50)%Q 100 os = [])
  /\ find_routes grid_distance town (50, 50)%Q (0, 3)%Q 100 = inl ValueError.
Proof.
  split; [eexists; split |]; vm_compute; reflexivity.
Qed.

Lemma pair_transits_disconnected dl o d so sd :
  stop_id dl o = inr so -> stop_id dl d = inr sd ->
  ~ connected (GRAPH dl) so sd ->
  raises (pair_transits dl (o, d)).
Proof.
  intros Ho Hd Hn; unfold pair_transits; simpl; rewrite Ho, Hd; simpl.
  rewrite journey_transits_uncapped.
  destruct (shortest_path_disconnected _ _ _ Hn) as [-> | ->];
    eexists; reflexivity.
Qed.

Lemma mapM_same_error {A B} (f : A -> result B) (l : list A) (e0 : exn) :
  (forall a, In a l -> f a = inl e0 \/ exists b, f a = inr b) ->
  (exists a, In a l /\ f a = inl e0) ->
  mapM f l = inl e0.
Proof.
  induction l as [| x l IH]; intros Hall (a & Hin & Ha); [destruct Hin |].
  simpl; destruct (Hall x (or_introl eq_refl)) as [Hx | (b & Hx)];
    rewrite Hx; [reflexivity |].
  simpl; rewrite IH; [reflexivity | |].
  - intros y Hy; apply Hall; right; exact Hy.
  - destruct Hin as [-> | Hin]; [rewrite Ha in *; discriminate |].
    exists a; auto.
Qed.

Lemma find_routes_pairs_inl distance dl origin destination max_walk pairs e :
  candidate_pairs distance dl origin destination max_walk = inr pairs ->
  mapM (pair_transits dl) pairs = inl e ->
  find_routes distance dl origin destination max_walk = inl e.
Proof.
  unfold find_routes, candidate_pairs.
  destruct (k_nearest_stop_coords dl (fst origin) (snd origin) 10)
    as [e' | os]; simpl; [discriminate |].
  destruct (k_nearest_stop_coords dl (fst destination) (snd destination) 10)
    as [e' | ds]; simpl; [discriminate |].
  intros H; injection H as <-; intros ->; reflexivity.
Qed.

Lemma candidate_pairs_indexed distance dl origin destination max_walk pairs o d :
  candidate_pairs distance dl origin destination max_walk = inr pairs ->
  10 <= length (data (ALL_STOPS_TREE dl)) ->
  In (o, d) pairs ->
  In o (data (ALL_STOPS_TREE dl)) /\ In d (data (ALL_STOPS_TREE dl)).
Proof.
  intros Hp Hten Hin; unfold candidate_pairs in Hp.
  destruct (k_nearest_enough dl (fst origin) (snd origin) 10)
    as (os & Ho & _ & Hios); [lia | exact Hten |].
  destruct (k_nearest_enough dl (fst destination) (snd destination) 10)
    as (ds & Hd & _ & Hids); [lia | exact Hten |].
  rewrite Ho, Hd in Hp; simpl in Hp; injection Hp as <-.
  apply in_prod_iff in Hin as [H1 H2].
  apply within_walk_In in H1 as [H1 _]; apply within_walk_In in H2 as [H2 _].
  auto.
Qed.

(** On well-formed data a pair's search either finds a path or reports
    that there is none. *)
Lemma pair_transits_well_formed dl o d :
  well_formed dl ->
  In o (data (ALL_STOPS_TREE dl)) -> In d (data (ALL_STOPS_TREE dl)) ->
  pair_transits dl (o, d) = inl NetworkXNoPath
  \/ exists p, pair_transits dl (o, d) = inr p.
Proof.
  intros [_ Hids _] Ho Hd.
  destruct (Hids o Ho) as (so & Hso & Hno).
  destruct (Hids d Hd) as (sd & Hsd & Hnd).
  unfold pair_transits; simpl; rewrite Hso, Hsd; simpl.
  rewrite journey_transits_uncapped; unfold shortest_path.
  rewrite Hno, Hnd; simpl.
  destruct (bfs _ _ _ _ _) as [p |]; [right; exists p |left]; reflexivity.
Qed.

(** C1, as the code has it: a candidate pair whose stops are not connected
    is not set aside: the failure of its path search leaves the planner,
    which raises whatever the other pairs are (on well-formed data the
    exception is NetworkXNoPath).  So when the planner returns journeys,
    every candidate pair is connected and the list is not empty. *)
Theorem disconnected_pair_raises distance dl origin destination max_walk pairs :
  candidate_pairs distance dl origin destination max_walk = inr pairs ->
  (forall o d so sd,
      In (o, d) pairs ->
      stop_id dl o = inr so -> stop_id dl d = inr sd ->
      ~ connected (GRAPH dl) so sd ->
      raises (find_routes distance dl origin destination max_walk)
      /\ (well_formed dl ->
          find_routes distance dl origin destination max_walk
          = inl NetworkXNoPath))
  /\ (forall js,
        find_routes distance dl origin destination max_walk = inr js ->
        js <> []
        /\ forall o d, In (o, d) pairs ->
             exists so sd,
               stop_id dl o = inr so /\ stop_id dl d = inr sd
               /\ connected (GRAPH dl) so sd).
Proof.
  intros Hp; split.
  - intros o d so sd Hin Ho Hd Hn.
    pose proof (pair_transits_disconnected dl o d so sd Ho Hd Hn) as Hr.
    split.
    + apply (find_routes_raises_pairs _ _ _ _ _ _ Hp).
      apply (mapM_raises _ _ (o, d) Hin Hr).
    + intros Hwf; apply (find_routes_pairs_inl _ _ _ _ _ _ _ Hp).
      apply mapM_same_error.
      * intros [o' d'] Hin'.
        destruct (candidate_pairs_indexed _ _ _ _ _ _ o' d' Hp
                    (wf_index _ Hwf) Hin') as [Ho' Hd'].
        apply (pair_transits_well_formed dl o' d' Hwf Ho' Hd').
      * exists (o, d); split; [exact Hin |].
        destruct (candidate_pairs_indexed _ _ _ _ _ _ o d Hp
                    (wf_index _ Hwf) Hin) as [Ho' Hd'].
        destruct (pair_transits_well_formed dl o d Hwf Ho' Hd')
          as [He | (p & Hpt)]; [exact He |].
        destruct Hr as (e & He); congruence.
  - intros js Hjs.
    apply find_routes_inr in Hjs as (pairs' & options & kept & Hp' & Ho & Hk & Hj).
    rewrite Hp in Hp'; injection Hp' as <-.
    apply mapM_inr in Ho; apply mapM_inr in Hj.
    apply keep_fewest_inr in Hk as (_ & Hkept & _).
    split.
    + apply Forall2_length_eq in Hj.
      destruct js; [destruct kept; [congruence | discriminate] | discriminate].
    + intros o d Hin.
      destruct (Forall2_In_l _ _ _ _ Ho Hin) as (p & _ & Hpt).
      apply pair_transits_inr in Hpt as (so & sd & Hso & Hsd & Hsp).
      exists so, sd; splits; auto.
      apply (shortest_path_sound _ _ _ _ Hsp).
Qed.

Lemma split_graph_s0_s4 : ~ connected split_graph "s0" "s4".
Proof.
  intros Hc.
  destruct (shortest_path_complete split_graph "s0" "s4") as (p & Hp);
    [reflexivity | reflexivity | exact Hc |].
  vm_compute in Hp; discriminate.
Qed.

Lemma town_on_well_formed g :
  (forall s, In s stop_names -> has_node g s = true) ->
  incl (graph_nodes g) stop_names ->
  well_formed (town_on g).
Proof.
  intros Hnodes Hincl; constructor.
  - simpl; lia.
  - intros c Hc; simpl in Hc.
    repeat (destruct Hc as [<- | Hc];
            [eexists; split; [vm_compute; reflexivity |
                              apply Hnodes; simpl; tauto] |]).
    destruct Hc.
  - intros s Hs; apply Hincl in Hs; simpl in Hs.
    repeat (destruct Hs as [<- | Hs]; [eexists; vm_compute; reflexivity |]).
    destruct Hs.
Qed.

Lemma split_town_well_formed : well_formed split_town.
Proof.
  apply town_on_well_formed.
  - intros s Hs; simpl in Hs.
    repeat (destruct Hs as [<- | Hs]; [vm_compute; reflexivity |]).
    destruct Hs.
  - intros s Hs; vm_compute in Hs; vm_compute; tauto.
Qed.

Lemma town_well_formed : well_formed town.
Proof.
  apply town_on_well_formed.
  - intros s Hs; simpl in Hs.
    repeat (destruct Hs as [<- | Hs]; [vm_compute; reflexivity |]).
    destruct Hs.
  - intros s Hs; vm_compute in Hs; vm_compute; tauto.
Qed.

Lemma disconnected_pair_raises_witness :
  raises (find_routes grid_distance split_town (0, 0)%Q (0, 3)%Q 100)
  /\ find_routes grid_distance split_town (0, 0)%Q (0, 3)%Q 100
     = inl NetworkXNoPath.
Proof.
  assert (Hp : candidate_pairs grid_distance split_town (0, 0)%Q (0, 3)%Q 100
               = inr (list_prod [(0, 0)%Q; (0, 1)%Q]
                                [(0, 3)%Q; (0, 2)%Q; (0, 4)%Q]))
    by (vm_compute; reflexivity).
  destruct (proj1 (disconnected_pair_raises grid_distance split_town
                     (0, 0)%Q (0, 3)%Q 100 _ Hp)
              (0, 0)%Q (0, 4)%Q "s0" "s4") as [Hr Hwf].
  - simpl; tauto.
  - vm_compute; reflexivity.
  - vm_compute; reflexivity.
  - exact split_graph_s0_s4.
  - split; [exact Hr | exact (Hwf split_town_well_formed)].
Defined.

(** C1 with local recovery fails.  From (0, 0) to (0, 3) the candidate pairs hold
    the connected pair s1, s2 and the disconnected pair s0, s4: the planner
    raises and returns no journey of the connected pairs.  From (0, 0) to
    (0, 11) with no walking the only pair is disconnected: the planner
    raises and does not return the empty list. *)
Lemma disconnected_pair_not_recovered :
  (exists pairs,
      candidate_pairs grid_distance split_town (0, 0)%Q (0, 3)%Q 100 = inr pairs
      /\ In ((0, 1)%Q, (0, 2)%Q) pairs
      /\ pair_transits split_town ((0, 1)%Q, (0, 2)%Q) = inr ["s1"; "s2"]
      /\ In ((0, 0)%Q, (0, 4)%Q) pairs
      /\ ~ connected (GRAPH split_town) "s0" "s4")
  /\ find_routes grid_distance split_town (0, 0)%Q (0, 3)%Q 100
     = inl NetworkXNoPath
  /\ candidate_pairs grid_distance split_town (0, 0)%Q (0, 11)%Q 0
     = inr [((0, 0)%Q, (0, 11)%Q)]
  /\ find_routes grid_distance split_town (0, 0)%Q (0, 11)%Q 0
     = inl NetworkXNoPath
  /\ find_routes grid_distance split_town (0, 0)%Q (0, 11)%Q 0 <> inr [].
Proof.
  splits.
  - eexists; splits.
    + vm_compute; reflexivity.
    + simpl; tauto.
    + vm_compute; reflexivity.
    + simpl; tauto.
    + exact split_graph_s0_s4.
  - vm_compute; reflexivity.
  - vm_compute; reflexivity.
  - vm_compute; reflexivity.
  - vm_compute; discriminate.
Qed.

(** ** The planner returns on well-formed data *)

Lemma chain_nodes g p :
  2 <= length p -> chain g p -> incl p (graph_nodes g).
Proof.
  induction p as [| a [| b p] IH]; simpl; try lia; intros _ [Hab Hc].
  pose proof (adjacent_nodes g a b Hab) as [Ha Hb].
  intros x [<- | Hx]; [exact Ha |].
  destruct p as [| c p].
  - destruct Hx as [<- | []]; exact Hb.
  - apply IH; [simpl; lia | exact Hc | exact Hx].
Qed.

Lemma parse_route_total dl p :
  p <> [] -> chain (GRAPH dl) p -> coords_cover dl (graph_nodes (GRAPH dl)) ->
  exists segs, parse_route dl p = inr segs.
Proof.
  destruct p as [| a [| b p]]; intros Hne Hc Hcov; [congruence | |].
  - exists []; reflexivity.
  - apply (segments_total dl a (b :: p) Hc).
    intros s Hs; apply Hcov, (chain_nodes _ (a :: b :: p)); auto.
    simpl; lia.
Qed.

(** On well-formed data with at least one candidate pair and every
    candidate pair connected, the planner returns: one journey for each
    path of least length, in the order of the pairs. *)
Lemma find_routes_total distance dl origin destination max_walk pairs :
  well_formed dl ->
  candidate_pairs distance dl origin destination max_walk = inr pairs ->
  pairs <> [] ->
  (forall o d so sd, In (o, d) pairs ->
      stop_id dl o = inr so -> stop_id dl d = inr sd ->
      connected (GRAPH dl) so sd) ->
  exists options kept js,
    mapM (pair_transits dl) pairs = inr options
    /\ keep_fewest options = inr kept
    /\ Forall2 (fun p j => parse_route dl p = inr j) kept js
    /\ find_routes distance dl origin destination max_walk = inr js
    /\ js <> [].
Proof.
  intros [Hten Hids Hcov] Hp Hne Hconn.
  destruct (mapM_total (pair_transits dl) pairs) as (options & Ho).
  { intros [o d] Hin.
    destruct (candidate_pairs_indexed _ _ _ _ _ _ o d Hp Hten Hin) as [Hio Hid].
    destruct (Hids o Hio) as (so & Hso & Hno).
    destruct (Hids d Hid) as (sd & Hsd & Hnd).
    destruct (shortest_path_complete (GRAPH dl) so sd Hno Hnd) as (p & Hsp).
    { apply (Hconn o d); auto. }
    exists p; apply pair_transits_inr; exists so, sd; auto. }
  pose proof Ho as Hall; apply mapM_inr in Hall.
  assert (Hone : options <> []).
  { apply Forall2_length_eq in Hall.
    destruct options; [destruct pairs; [congruence | discriminate] |].
    discriminate. }
  destruct (keep_fewest_filter options Hone) as (m & Hk & _).
  set (kept := filter (fun t => length t =? m) options) in *.
  pose proof (keep_fewest_inr _ _ Hk) as (_ & Hkne & Hincl).
  destruct (mapM_total (parse_route dl) kept) as (js & Hjs).
  { intros p Hin.
    destruct (Forall2_In_r _ _ _ _ Hall (Hincl p Hin)) as (pair & _ & Hpt).
    apply pair_transits_inr in Hpt as (so & sd & _ & _ & Hsp).
    apply shortest_path_sound in Hsp as (Hc & Hh & _).
    apply parse_route_total; auto.
    intros ->; discriminate. }
  exists options, kept, js; splits; auto.
  - apply mapM_inr, Hjs.
  - apply find_routes_inr; exists pairs, options, kept; auto.
  - apply mapM_inr, Forall2_length_eq in Hjs.
    destruct js; [destruct kept; [congruence | discriminate] | discriminate].
Qed.

(** In [town], from (0, 0) to (0, 3) within 100 m, every candidate pair is
    connected and the planner returns. *)
Lemma town_routes :
  exists js,
    find_routes grid_distance town (0, 0)%Q (0, 3)%Q 100 = inr js /\ js <> [].
Proof.
  destruct (find_routes_total grid_distance town (0, 0)%Q (0, 3)%Q 100
              (list_prod [(0, 0)%Q; (0, 1)%Q] [(0, 3)%Q; (0, 2)%Q; (0, 4)%Q]))
    as (options & kept & js & _ & _ & _ & Hjs & Hne).
  - exact town_well_formed.
  - vm_compute; reflexivity.
  - discriminate.
  - intros o d so sd Hin Ho Hd; simpl in Hin.
    repeat (destruct Hin as [Hin | Hin];
            [injection Hin as <- <-; vm_compute in Ho, Hd;
             injection Ho as <-; injection Hd as <-;
             eapply shortest_path_sound; vm_compute; reflexivity |]).
    destruct Hin.
  - exists js; auto.
Qed.

(** Between connected stops, a cap other than 0 gives the empty path when
    the path found has more changes than the cap, and the path itself
    otherwise. *)
Lemma journey_transits_connected dl s t m :
  has_node (GRAPH dl) s = true -> has_node (GRAPH dl) t = true ->
  connected (GRAPH dl) s t -> m <> 0%Z ->
  exists p,
    shortest_path (GRAPH dl) s t = inr p
    /\ journey_transits dl s t None = inr p
    /\ journey_transits dl s t (Some m)
       = inr (if (m <? Z.of_nat (length p) - 2)%Z then [] else p).
Proof.
  intros Hs Ht Hc Hm.
  destruct (shortest_path_complete _ s t Hs Ht Hc) as (p & Hp).
  exists p; splits; auto.
  - rewrite journey_transits_uncapped; exact Hp.
  - apply journey_transits_capped; assumption.
Qed.

(** What the planner returns, when it returns: the decompositions of the
    candidate pairs' paths of least length, in the order of the pairs. *)
Lemma find_routes_fewest distance dl origin destination max_walk js :
  find_routes distance dl origin destination max_walk = inr js ->
  exists pairs options m,
    candidate_pairs distance dl origin destination max_walk = inr pairs
    /\ Forall2 (fun pair p => pair_transits dl pair = inr p) pairs options
    /\ (exists t, In t options /\ length t = m)
    /\ (forall t, In t options -> m <= length t)
    /\ Forall2 (fun p j => parse_route dl p = inr j)
               (filter (fun t => length t =? m) options) js.
Proof.
  intros H.
  apply find_routes_inr in H as (pairs & options & kept & Hp & Ho & Hk & Hj).
  pose proof (keep_fewest_inr _ _ Hk) as (Hne & _).
  destruct (keep_fewest_filter options Hne) as (m & Hk' & Hex & Hmin).
  rewrite Hk in Hk'; injection Hk' as ->.
  exists pairs, options, m; splits; auto.
  - apply mapM_inr, Ho.
  - apply mapM_inr, Hj.
Qed.

(** C4: in one planning call that returns, every candidate pair has a path
    (none failed, none is the empty marker), and the journeys returned are
    the decompositions of exactly the per-pair paths whose length is the
    least length over all pairs: [kept] is the list of per-pair paths
    filtered on that length, so every path of least length is kept as often
    as it occurs (ties are not merged) and in pair order, every longer path
    is left out, and [js] holds one journey for each kept path. *)
Theorem find_routes_keeps_fewest distance dl origin destination max_walk js :
  find_routes distance dl origin destination max_walk = inr js ->
  exists pairs options kept m,
    candidate_pairs distance dl origin destination max_walk = inr pairs
    /\ Forall2 (fun pair p => pair_transits dl pair = inr p) pairs options
    /\ (forall t, In t options -> 1 <= length t)
    /\ (exists t, In t options /\ length t = m)
    /\ (forall t, In t options -> m <= length t)
    /\ kept = filter (fun t => length t =? m) options
    /\ (forall t, length t = m ->
          count_occ (list_eq_dec string_dec) kept t
          = count_occ (list_eq_dec string_dec) options t)
    /\ (forall t, m < length t -> ~ In t kept)
    /\ Forall2 (fun p j => parse_route dl p = inr j) kept js
    /\ length js = length kept.
Proof.
  intros H.
  apply find_routes_fewest in H
    as (pairs & options & m & Hp & Ho & Hex & Hmin & Hj).
  exists pairs, options, (filter (fun t => length t =? m) options), m.
  splits; auto.
  - intros t Ht; destruct (Forall2_In_r _ _ _ _ Ho Ht) as (pair & _ & Hpt).
    apply pair_transits_inr in Hpt as (so & sd & _ & _ & Hsp).
    apply shortest_path_sound in Hsp as (_ & Hh & _).
    destruct t; [discriminate | simpl; lia].
  - intros t Ht; rewrite count_occ_filter; cbv beta.
    rewrite Ht, Nat.eqb_refl; reflexivity.
  - intros t Hlt Hin; apply filter_In in Hin as [_ Hin].
    apply Nat.eqb_eq in Hin; lia.
  - symmetry; apply (Forall2_length_eq _ _ _ Hj).
Qed.

Lemma find_routes_keeps_fewest_witness :
  exists pairs options kept m,
    candidate_pairs grid_distance town (0, 0)%Q (0, 3)%Q 100 = inr pairs
    /\ Forall2 (fun pair p => pair_transits town pair = inr p) pairs options
    /\ (forall t, In t options -> 1 <= length t)
    /\ (exists t, In t options /\ length t = m)
    /\ (forall t, In t options -> m <= length t)
    /\ kept = filter (fun t => length t =? m) options
    /\ (forall t, length t = m ->
          count_occ (list_eq_dec string_dec) kept t
          = count_occ (list_eq_dec string_dec) options t)
    /\ (forall t, m < length t -> ~ In t kept)
    /\ Forall2 (fun p j => parse_route town p = inr j) kept
         [[VDict
             [("busses", VList [VStr "L1"]);
              ("board",
               VDict [("id", VStr "s1"); ("lat", VNum 0); ("lng", VNum 1)]);
              ("deboard",
               VDict [("id", VStr "s2"); ("lat", VNum 0); ("lng", VNum 2)])]]]
    /\ length
         [[VDict
             [("busses", VList [VStr "L1"]);
              ("board",
               VDict [("id", VStr "s1"); ("lat", VNum 0); ("lng", VNum 1)]);
              ("deboard",
               VDict [("id", VStr "s2"); ("lat", VNum 0); ("lng", VNum 2)])]]]
       = length kept.
Proof.
  apply (find_routes_keeps_fewest grid_distance town (0, 0)%Q (0, 3)%Q 100).
  vm_compute; reflexivity.
Defined.

(** C8: in [find_routes] the candidates returned by the index pass the
    walking-distance filter, on the origin side and on the destination
    side alike: the stops that go on to path search are exactly the
    returned candidates whose distance to the query point is at most
    [max_walk]; a candidate at exactly [max_walk] goes on, a stop farther
    away does not.  The outcome of the call is the outcome of searching the
    pairs of the stops that went on, and when the call returns, every such
    pair was searched and its path has at least as many stops as the
    paths of the journeys returned. *)
Theorem find_routes_walking_filter distance dl origin destination max_walk
        os ds :
  k_nearest_stop_coords dl (fst origin) (snd origin) 10 = inr os ->
  k_nearest_stop_coords dl (fst destination) (snd destination) 10 = inr ds ->
  exists origin_stops destination_stops,
    (forall s, In s origin_stops
       <-> In s os /\ (distance origin s <= inject_Z max_walk)%Q)
    /\ (forall s, In s destination_stops
          <-> In s ds /\ (distance destination s <= inject_Z max_walk)%Q)
    /\ (forall s, In s os -> (distance origin s == inject_Z max_walk)%Q ->
          In s origin_stops)
    /\ (forall s, (inject_Z max_walk < distance origin s)%Q ->
          ~ In s origin_stops)
    /\ (forall s, In s ds ->
          (distance destination s == inject_Z max_walk)%Q ->
          In s destination_stops)
    /\ (forall s, (inject_Z max_walk < distance destination s)%Q ->
          ~ In s destination_stops)
    /\ find_routes distance dl origin destination max_walk
       = (transit_options <-
            mapM (pair_transits dl)
                 (list_prod origin_stops destination_stops) ;;
          transit_options <- keep_fewest transit_options ;;
          mapM (parse_route dl) transit_options)
    /\ (forall js,
          find_routes distance dl origin destination max_walk = inr js ->
          forall o d, In o origin_stops -> In d destination_stops ->
            exists p,
              pair_transits dl (o, d) = inr p
              /\ forall j, In j js -> S (length j) <= length p).
Proof.
  intros Hos Hds.
  exists (within_walk distance origin max_walk os),
         (within_walk distance destination max_walk ds).
  splits.
  - intros s; apply within_walk_In.
  - intros s; apply within_walk_In.
  - intros s Hs Heq.
    apply (walking_filter_boundary distance origin max_walk os s Hs), Heq.
  - intros s Hlt Hin; apply within_walk_In in Hin as [_ Hle].
    exact (Qlt_not_le _ _ Hlt Hle).
  - intros s Hs Heq.
    apply (walking_filter_boundary distance destination max_walk ds s Hs), Heq.
  - intros s Hlt Hin; apply within_walk_In in Hin as [_ Hle].
    exact (Qlt_not_le _ _ Hlt Hle).
  - unfold find_routes; rewrite Hos, Hds; reflexivity.
  - intros js Hjs o d Ho Hd.
    apply find_routes_fewest in Hjs
      as (pairs & options & m & Hp & Hopt & _ & Hmin & Hj).
    unfold candidate_pairs in Hp; rewrite Hos, Hds in Hp; simpl in Hp.
    injection Hp as <-.
    assert (Hin : In (o, d)
                     (list_prod (within_walk distance origin max_walk os)
                        (within_walk distance destination max_walk ds)))
      by (apply in_prod_iff; auto).
    destruct (Forall2_In_l _ _ _ _ Hopt Hin) as (p & Hpin & Hpt).
    exists p; split; [exact Hpt |].
    intros j Hjin; destruct (Forall2_In_r _ _ _ _ Hj Hjin) as (q & Hq & Hpr).
    apply filter_In in Hq as [_ Hlen]; apply Nat.eqb_eq in Hlen.
    apply parse_route_inr in Hpr as (a & rest & -> & Hs).
    apply segments_length in Hs; specialize (Hmin p Hpin).
    simpl in Hlen; lia.
Qed.

Lemma find_routes_walking_filter_witness :
  exists origin_stops destination_stops,
    In (0, 1)%Q origin_stops
    /\ ~ In (0, 2)%Q origin_stops
    /\ In (0, 4)%Q destination_stops
    /\ ~ In (0, 5)%Q destination_stops
    /\ find_routes grid_distance town (0, 0)%Q (0, 3)%Q 100
       = (transit_options <-
            mapM (pair_transits town)
                 (list_prod origin_stops destination_stops) ;;
          transit_options <- keep_fewest transit_options ;;
          mapM (parse_route town) transit_options).
Proof.
  destruct (find_routes_walking_filter grid_distance town
              (0, 0)%Q (0, 3)%Q 100
              [(0, 0)%Q; (0, 1)%Q; (0, 2)%Q; (0, 3)%Q; (0, 4)%Q; (0, 5)%Q;
               (0, 6)%Q; (0, 7)%Q; (0, 8)%Q; (0, 9)%Q]
              [(0, 3)%Q; (0, 2)%Q; (0, 4)%Q; (0, 1)%Q; (0, 5)%Q; (0, 0)%Q;
               (0, 6)%Q; (0, 7)%Q; (0, 8)%Q; (0, 9)%Q])
    as (O & D & _ & _ & Hbo & Hxo & Hbd & Hxd & Heq & _).
  - vm_compute; reflexivity.
  - vm_compute; reflexivity.
  - exists O, D; splits.
    + apply Hbo; [simpl; tauto | vm_compute; reflexivity].
    + apply Hxo; vm_compute; reflexivity.
    + apply Hbd; [simpl; tauto | vm_compute; reflexivity].
    + apply Hxd; vm_compute; reflexivity.
    + exact Heq.
Defined.

(** * Further properties of the module *)

(** ** [lines_connecting_stops] *)

Lemma parallel_edges_sym g a b : parallel_edges g a b = parallel_edges g b a.
Proof.
  unfold parallel_edges; apply filter_ext; intros e; apply joins_sym.
Qed.

Lemma lines_connecting_stops_inr dl a b ls :
  lines_connecting_stops dl a b = inr ls
  <-> ls = map line (parallel_edges (GRAPH dl) a b)
      /\ parallel_edges (GRAPH dl) a b <> [].
Proof.
  unfold lines_connecting_stops; rewrite bind_inr; split.
  - intros (es & Hes & H); apply edges_between_inr in Hes as [-> Hne].
    injection H as <-; auto.
  - intros [-> Hne]; exists (parallel_edges (GRAPH dl) a b); split;
      [apply edges_between_inr; auto | reflexivity].
Qed.

(** X1: [lines_connecting_stops] does not depend on the direction of
    travel; between adjacent stops it returns the line of every edge that
    joins them, one entry per edge in insertion order, never an empty list;
    between stops that no edge joins it raises KeyError. *)
Theorem lines_connecting_stops_undirected dl a b :
  lines_connecting_stops dl a b = lines_connecting_stops dl b a
  /\ (adjacent (GRAPH dl) a b ->
      exists ls,
        lines_connecting_stops dl a b = inr ls
        /\ ls = map line (filter (joins a b) (edges (GRAPH dl)))
        /\ ls <> [])
  /\ (~ adjacent (GRAPH dl) a b ->
      lines_connecting_stops dl a b = inl KeyError).
Proof.
  splits.
  - unfold lines_connecting_stops, edges_between.
    rewrite (parallel_edges_sym _ a b); reflexivity.
  - intros Hadj; apply adjacent_parallel in Hadj.
    exists (map line (parallel_edges (GRAPH dl) a b)); splits.
    + apply lines_connecting_stops_inr; auto.
    + reflexivity.
    + intros Hnil; apply map_eq_nil in Hnil; exact (Hadj Hnil).
  - intros Hn; unfold lines_connecting_stops, edges_between.
    destruct (parallel_edges (GRAPH dl) a b) as [| e es] eqn:Hp;
      [reflexivity |].
    exfalso; apply Hn, adjacent_parallel; rewrite Hp; discriminate.
Qed.

Lemma lines_connecting_stops_undirected_witness :
  lines_connecting_stops town "s1" "s0" = inr ["L1"; "L2"]
  /\ lines_connecting_stops town "s0" "s5" = inl KeyError.
Proof.
  split.
  - destruct (proj1 (proj2 (lines_connecting_stops_undirected town "s1" "s0")))
      as (ls & Hls & Heq & _).
    + apply adjacent_parallel; vm_compute; discriminate.
    + rewrite Hls, Heq; vm_compute; reflexivity.
  - apply (proj2 (proj2 (lines_connecting_stops_undirected town "s0" "s5"))).
    intros Hadj; apply adjacent_parallel in Hadj; apply Hadj.
    vm_compute; reflexivity.
Defined.

(** ** [parse_route] *)

(** X2: the lines that [parse_route] collects for a hop are the lines that
    [lines_connecting_stops] returns for the two stops of the hop: the
    inline loop and the helper agree on every segment. *)
Theorem parse_route_lines_agree dl path segs :
  parse_route dl path = inr segs ->
  forall i x y,
    nth_error path i = Some x -> nth_error path (S i) = Some y ->
    exists seg,
      nth_error segs i = Some seg
      /\ field "board" "id" seg = Some (VStr x)
      /\ field "deboard" "id" seg = Some (VStr y)
      /\ lines_connecting_stops dl x y = inr (lines_under "busses" seg).
Proof.
  intros H; apply parse_route_inr in H as (a & rest & -> & H).
  revert a segs H; induction rest as [| b rest IH]; intros a segs H i x y Hx Hy.
  - destruct i as [| [| i]]; discriminate.
  - apply segments_cons in H as (ca & cb & segs' & Hne & _ & _ & Hs & ->).
    destruct i as [| i].
    + simpl in Hx, Hy; injection Hx as <-; injection Hy as <-.
      eexists; splits; try reflexivity.
      apply lines_connecting_stops_inr; split; [| exact Hne].
      unfold lines_under, dict_get; cbn [assoc String.eqb Ascii.eqb Bool.eqb].
      apply strings_of_map.
    + apply (IH b segs' Hs i x y Hx Hy).
Qed.

Lemma parse_route_lines_agree_witness :
  exists seg,
    nth_error
      [VDict
         [("busses", VList [VStr "L1"; VStr "L2"]);
          ("board",
           VDict [("id", VStr "s0"); ("lat", VNum 0); ("lng", VNum 0)]);
          ("deboard",
           VDict [("id", VStr "s1"); ("lat", VNum 0); ("lng", VNum 1)])]] 0
    = Some seg
    /\ field "board" "id" seg = Some (VStr "s0")
    /\ field "deboard" "id" seg = Some (VStr "s1")
    /\ lines_connecting_stops town "s0" "s1"
       = inr (lines_under "busses" seg).
Proof.
  apply (parse_route_lines_agree town ["s0"; "s1"] _ eq_refl 0 "s0" "s1");
    reflexivity.
Defined.





Lemma parse_route_split dl p x q :
  parse_route dl (p ++ x :: q)
  = (s1 <- parse_route dl (p ++ [x]) ;;
     s2 <- parse_route dl (x :: q) ;;
     ret (s1 ++ s2)).
Proof.
  destruct p as [| a p]; simpl.
  - destruct (segments dl x q); reflexivity.
  - revert a; induction p as [| b p IH]; intros a; simpl.
    + destruct (edges_between (GRAPH dl) a x) as [e | es]; simpl;
        [reflexivity |].
      destruct (stop_dict dl a) as [e | va]; simpl; [reflexivity |].
      destruct (stop_dict dl x) as [e | vx]; simpl; [reflexivity |].
      destruct (segments dl x q); reflexivity.
    + destruct (edges_between (GRAPH dl) a b) as [e | es]; simpl;
        [reflexivity |].
      destruct (stop_dict dl a) as [e | va]; simpl; [reflexivity |].
      destruct (stop_dict dl b) as [e | vb]; simpl; [reflexivity |].
      rewrite (IH b).
      destruct (segments dl b (p ++ [x])) as [e | s1]; simpl; [reflexivity |].
      destruct (segments dl x q); reflexivity.
Qed.

(** X4: decomposition composes along a path: the segments of a path through
    a stop [x] are the segments up to [x] followed by the segments from [x]
    on, and the whole fails whenever one of the two parts fails. *)
Theorem parse_route_app dl p x q :
  parse_route dl (p ++ x :: q)
  = (s1 <- parse_route dl (p ++ [x]) ;;
     s2 <- parse_route dl (x :: q) ;;
     ret (s1 ++ s2)).
Proof. exact (parse_route_split dl p x q). Qed.

(** ** [journey_transits] *)

Lemma bfs_nodup g t fuel : forall seen frontier p,
  (forall q, In q frontier -> NoDup q /\ incl q seen) ->
  bfs g t fuel seen frontier = Some p -> NoDup p.
Proof.
  induction fuel as [| fuel IH]; intros seen frontier p Hq; simpl;
    destruct (find (ends_at t) frontier) as [q0 |] eqn:Hf; try discriminate.
  - intros H; injection H as <-; apply find_some in Hf as [Hq0 _].
    apply NoDup_rev, (Hq q0 Hq0).
  - intros H; injection H as <-; apply find_some in Hf as [Hq0 _].
    apply NoDup_rev, (Hq q0 Hq0).
  - destruct (level g frontier seen) as [seen' next] eqn:Hl.
    destruct (level_spec _ _ _ _ _ Hl) as (Hseen & _ & Hfresh & Hfrom & _).
    destruct next as [| n next]; [discriminate |].
    apply IH; intros q Hin.
    destruct (Hfrom q Hin) as (p0 & v & Hp0 & -> & _).
    destruct (Hq p0 Hp0) as [Hnd Hincl].
    assert (Hv : ~ In v seen).
    { apply Hfresh; unfold heads; apply in_map_iff.
      exists (v :: p0); split; [reflexivity | exact Hin]. }
    split.
    + constructor; [intros Hvp; apply Hv, Hincl, Hvp | exact Hnd].
    + rewrite Hseen; intros x [<- | Hx]; apply in_or_app.
      * left; apply in_rev; rewrite rev_involutive; unfold heads.
        apply in_map_iff; exists (v :: p0); split; [reflexivity | exact Hin].
      * right; apply Hincl, Hx.
Qed.

Lemma shortest_path_nodup g s t p : shortest_path g s t = inr p -> NoDup p.
Proof.
  unfold shortest_path.
  destruct (has_node g s && has_node g t); [| discriminate].
  destruct (bfs g t (length (graph_nodes g)) [s] [[s]]) as [p' |] eqn:Hb;
    [| discriminate].
  intros H; injection H as <-.
  apply (bfs_nodup g t (length (graph_nodes g)) [s] [[s]] p'); [| exact Hb].
  intros q [<- | []]; split.
  - constructor; [intros [] | constructor].
  - intros x Hx; exact Hx.
Qed.

Lemma shortest_path_nodes g s t p :
  shortest_path g s t = inr p -> incl p (graph_nodes g).
Proof.
  intros Hp; pose proof (shortest_path_sound g s t p Hp) as (Hc & Hh & _).
  unfold shortest_path in Hp.
  destruct (has_node g s) eqn:Hs; [| discriminate].
  destruct p as [| a [| b p]].
  - intros x [].
  - injection Hh as ->; intros x [<- | []]; apply mem_In, Hs.
  - apply chain_nodes; [simpl; lia | exact Hc].
Qed.

(** X5: without a cap, the list that [journey_transits] returns is a path
    of the graph from the origin stop to the destination stop: it starts at
    the origin, ends at the destination, every two consecutive stops are
    joined by an edge, every stop is a stop of the graph and no stop occurs
    twice. *)
Theorem journey_transits_is_path dl s t p :
  journey_transits dl s t None = inr p ->
  hd_error p = Some s
  /\ last p EmptyString = t
  /\ chain (GRAPH dl) p
  /\ incl p (graph_nodes (GRAPH dl))
  /\ NoDup p.
Proof.
  rewrite journey_transits_uncapped; intros Hp.
  pose proof (shortest_path_sound _ s t p Hp) as (Hc & Hh & Hl & _).
  splits; auto.
  - apply (shortest_path_nodes _ s t p Hp).
  - apply (shortest_path_nodup _ s t p Hp).
Qed.

Lemma journey_transits_is_path_witness :
  hd_error ["s0"; "s1"; "s2"; "s3"] = Some "s0"
  /\ last ["s0"; "s1"; "s2"; "s3"] EmptyString = "s3"
  /\ chain (GRAPH town) ["s0"; "s1"; "s2"; "s3"]
  /\ incl ["s0"; "s1"; "s2"; "s3"] (graph_nodes (GRAPH town))
  /\ NoDup ["s0"; "s1"; "s2"; "s3"].
Proof.
  apply (journey_transits_is_path town "s0" "s3").
  vm_compute; reflexivity.
Defined.

(** X6: without a cap, no path of the graph from the origin stop to the
    destination stop has fewer stops than the one [journey_transits]
    returns: the journey has the fewest changes. *)
Theorem journey_transits_fewest_changes dl s t p :
  journey_transits dl s t None = inr p ->
  forall p',
    chain (GRAPH dl) p' -> hd_error p' = Some s -> last p' EmptyString = t ->
    length p <= length p'.
Proof.
  rewrite journey_transits_uncapped; apply shortest_path_shortest.
Qed.

Lemma journey_transits_fewest_changes_witness :
  length ["s0"; "s1"; "s2"] <= length ["s0"; "s1"; "s0"; "s1"; "s2"].
Proof.
  apply (journey_transits_fewest_changes town "s0" "s2" ["s0"; "s1"; "s2"]).
  - vm_compute; reflexivity.
  - simpl; splits; try exact I; apply adjacent_parallel; vm_compute;
      discriminate.
  - reflexivity.
  - reflexivity.
Defined.

(** X7: what [journey_transits] raises does not depend on the cap: with a
    stop that is not in the graph it raises NodeNotFound; with two stops of
    the graph that no path connects it raises NetworkXNoPath; with two
    connected stops it returns. *)
Theorem journey_transits_outcomes dl s t max_changes :
  (has_node (GRAPH dl) s && has_node (GRAPH dl) t = false ->
   journey_transits dl s t max_changes = inl NodeNotFound)
  /\ (has_node (GRAPH dl) s && has_node (GRAPH dl) t = true ->
      ~ connected (GRAPH dl) s t ->
      journey_transits dl s t max_changes = inl NetworkXNoPath)
  /\ (has_node (GRAPH dl) s && has_node (GRAPH dl) t = true ->
      connected (GRAPH dl) s t ->
      exists p, journey_transits dl s t max_changes = inr p).
Proof.
  unfold journey_transits; splits.
  - intros Hn; unfold shortest_path; rewrite Hn; reflexivity.
  - intros Hn Hc.
    destruct (shortest_path_disconnected _ s t Hc) as [He | He];
      rewrite He; [| reflexivity].
    unfold shortest_path in He; rewrite Hn in He.
    destruct (bfs _ _ _ _ _); discriminate.
  - intros Hn Hc; apply andb_true_iff in Hn as [Hs Ht].
    destruct (shortest_path_complete _ s t Hs Ht Hc) as (p & ->); simpl.
    destruct (truthy max_changes && exceeds p max_changes); eauto.
Qed.

Lemma journey_transits_outcomes_witness :
  journey_transits split_town "s0" "nowhere" (Some 3%Z) = inl NodeNotFound
  /\ journey_transits split_town "s0" "s4" (Some 3%Z) = inl NetworkXNoPath
  /\ exists p, journey_transits split_town "s0" "s3" (Some 3%Z) = inr p.
Proof.
  splits.
  - apply (proj1 (journey_transits_outcomes split_town "s0" "nowhere" _)).
    reflexivity.
  - apply (proj1 (proj2 (journey_transits_outcomes split_town "s0" "s4" _)));
      [reflexivity | exact split_graph_s0_s4].
  - apply (proj2 (proj2 (journey_transits_outcomes split_town "s0" "s3" _)));
      [reflexivity |].
    eapply shortest_path_sound; vm_compute; reflexivity.
Defined.

(** X8: from a stop of the graph to itself, [journey_transits] returns the
    one-stop path, without a cap and with every cap that is not negative. *)
Theorem journey_transits_same_stop dl s max_changes :
  has_node (GRAPH dl) s = true ->
  (forall m, max_changes = Some m -> (0 <= m)%Z) ->
  journey_transits dl s s max_changes = inr [s].
Proof.
  intros Hs Hm; unfold journey_transits.
  rewrite (shortest_path_same _ s Hs); simpl.
  destruct max_changes as [m |]; simpl; [| reflexivity].
  specialize (Hm m eq_refl).
  destruct (Z.ltb_spec m (-1)) as [Hlt | _]; [lia |].
  rewrite andb_false_r; reflexivity.
Qed.

Lemma journey_transits_same_stop_witness :
  journey_transits town "s4" "s4" (Some 0%Z) = inr ["s4"].
Proof.
  apply (journey_transits_same_stop town "s4" (Some 0%Z)).
  - reflexivity.
  - intros m H; injection H as <-; lia.
Defined.

(** X9: a cap other than 0 is kept: what [journey_transits] returns is
    either the path found without a cap, which then has at most
    [max_changes] changes, or the empty list, and then the path found has
    more changes than the cap. *)
Theorem journey_transits_within_cap dl s t m p :
  m <> 0%Z ->
  journey_transits dl s t (Some m) = inr p ->
  exists full,
    journey_transits dl s t None = inr full
    /\ ((p = full /\ (Z.of_nat (length full) - 2 <= m)%Z)
        \/ (p = [] /\ (m < Z.of_nat (length full) - 2)%Z)).
Proof.
  intros Hm Hp; rewrite journey_transits_uncapped.
  destruct (shortest_path (GRAPH dl) s t) as [e | full] eqn:Hsp.
  - unfold journey_transits in Hp; rewrite Hsp in Hp; discriminate.
  - rewrite (journey_transits_capped dl s t m full Hm Hsp) in Hp.
    exists full; split; [reflexivity |].
    destruct (Z.ltb_spec m (Z.of_nat (length full) - 2)) as [Hlt | Hge];
      injection Hp as <-; [right | left]; auto.
Qed.

Lemma journey_transits_within_cap_witness :
  exists full,
    journey_transits town "s0" "s5" None = inr full
    /\ (([] = full /\ (Z.of_nat (length full) - 2 <= 2)%Z)
        \/ (@nil string = [] /\ (2 < Z.of_nat (length full) - 2)%Z)).
Proof.
  apply (journey_transits_within_cap town "s0" "s5" 2 []).
  - discriminate.
  - vm_compute; reflexivity.
Defined.

Lemma connected_trans g a b c :
  connected g a b -> connected g b c -> connected g a c.
Proof.
  intros Hab Hbc; induction Hbc as [| x y _ IH Hxy]; [exact Hab |].
  econstructor; eassumption.
Qed.

Lemma connected_sym g a b : connected g a b -> connected g b a.
Proof.
  induction 1 as [| x y _ IH Hxy]; [constructor |].
  apply (connected_trans g y x a); [| exact IH].
  econstructor; [constructor | apply adjacent_sym, Hxy].
Qed.

Lemma chain_rev g p : chain g p -> chain g (rev p).
Proof.
  induction p as [| a [| b p] IH]; intros Hc; [exact I | exact I |].
  destruct Hc as [Hab Hc]; specialize (IH Hc).
  change (rev (a :: b :: p)) with ((rev p ++ [b]) ++ [a]).
  apply chain_snoc; [exact IH | apply adjacent_sym, Hab].
Qed.

Lemma hd_error_rev (p : list StopId) (t : StopId) :
  p <> [] -> last p EmptyString = t -> hd_error (rev p) = Some t.
Proof.
  induction p as [| a p IH] using rev_ind; [congruence |].
  intros _; rewrite last_last, rev_app_distr; intros ->; reflexivity.
Qed.

Lemma last_rev (p : list StopId) (s : StopId) :
  hd_error p = Some s -> last (rev p) EmptyString = s.
Proof.
  destruct p as [| a p]; [discriminate |]; intros H; injection H as ->.
  simpl; apply last_last.
Qed.

Lemma shortest_path_return (dl : data_loader) s t p :
  shortest_path (GRAPH dl) s t = inr p ->
  exists q, shortest_path (GRAPH dl) t s = inr q /\ length q = length p.
Proof.
  intros Hp.
  pose proof (shortest_path_sound _ s t p Hp) as (Hc & Hh & Hl & Hconn).
  assert (Hn : has_node (GRAPH dl) s = true /\ has_node (GRAPH dl) t = true).
  { unfold shortest_path in Hp.
    destruct (has_node (GRAPH dl) s), (has_node (GRAPH dl) t);
      try discriminate; auto. }
  destruct Hn as [Hs Ht].
  destruct (shortest_path_complete _ t s Ht Hs (connected_sym _ _ _ Hconn))
    as (q & Hq).
  pose proof (shortest_path_sound _ t s q Hq) as (Hcq & Hhq & Hlq & _).
  assert (Hpne : p <> []) by (intros ->; discriminate).
  assert (Hqne : q <> []) by (intros ->; discriminate).
  exists q; split; [exact Hq |].
  apply Nat.le_antisymm.
  - rewrite <- (length_rev p).
    apply (shortest_path_shortest _ t s q Hq (rev p)).
    + apply chain_rev, Hc.
    + apply hd_error_rev; assumption.
    + apply last_rev, Hh.
  - rewrite <- (length_rev q).
    apply (shortest_path_shortest _ s t p Hp (rev q)).
    + apply chain_rev, Hcq.
    + apply hd_error_rev; assumption.
    + apply last_rev, Hhq.
Qed.

(** X10: the graph is undirected: when [journey_transits] finds a path from
    one stop to another, it finds one the other way round with the same
    number of stops. *)
Theorem journey_transits_return_trip dl s t p :
  journey_transits dl s t None = inr p ->
  exists q,
    journey_transits dl t s None = inr q /\ length q = length p.
Proof.
  rewrite !journey_transits_uncapped; apply shortest_path_return.
Qed.

Lemma journey_transits_return_trip_witness :
  exists q,
    journey_transits town "s7" "s2" None = inr q
    /\ length q = length ["s2"; "s3"; "s4"; "s5"; "s6"; "s7"].
Proof.
  apply (journey_transits_return_trip town "s2" "s7").
  vm_compute; reflexivity.
Defined.

(** ** [k_nearest_stop_coords] *)

(** X11: [k_nearest_stop_coords] returns exactly when [k] is at least 2 and
    at most the number of indexed stops; it then returns [k] coordinates,
    all of them in the index.  For [k = 0] it raises ValueError, for
    [k = 1], its default, TypeError, and for [k] above the number of
    indexed stops IndexError. *)
Theorem k_nearest_stop_coords_outcomes dl lat lon k :
  ((exists cs, k_nearest_stop_coords dl lat lon k = inr cs)
   <-> 2 <= k <= length (data (ALL_STOPS_TREE dl)))
  /\ (forall cs, k_nearest_stop_coords dl lat lon k = inr cs ->
        length cs = k /\ incl cs (data (ALL_STOPS_TREE dl)))
  /\ (forall e, k_nearest_stop_coords dl lat lon k = inl e ->
        (k = 0 /\ e = ValueError)
        \/ (k = 1 /\ e = TypeError)
        \/ (length (data (ALL_STOPS_TREE dl)) < k /\ e = IndexError)).
Proof.
  destruct (Nat.lt_ge_cases k 2) as [Hlt | H2].
  - assert (Hk : k_nearest_stop_coords dl lat lon k
                 = inl (if k =? 0 then ValueError else TypeError)).
    { destruct k as [| [| k]]; [reflexivity | reflexivity | lia]. }
    rewrite Hk; split; [split |]; [| | split].
    + intros (cs & H); discriminate.
    + lia.
    + discriminate.
    + intros e H; injection H as <-.
      destruct k as [| [| k]]; [left | right; left | lia]; auto.
  - destruct (Nat.le_gt_cases k (length (data (ALL_STOPS_TREE dl))))
      as [Hle | Hgt].
    + destruct (k_nearest_enough dl lat lon k H2 Hle) as (cs & Hcs & Hl & Hi).
      rewrite Hcs; split; [split |]; [intros _; lia | eauto | split].
      * intros cs' H; injection H as <-; auto.
      * discriminate.
    + rewrite (k_nearest_short dl lat lon k H2 Hgt).
      split; [split |]; [| | split].
      * intros (cs & H); discriminate.
      * lia.
      * discriminate.
      * intros e H; injection H as <-; right; right; auto.
Qed.

Lemma k_nearest_stop_coords_outcomes_witness :
  ((exists cs, k_nearest_stop_coords hamlet 0 0 3 = inr cs)
   <-> 2 <= 3 <= length (data (ALL_STOPS_TREE hamlet)))
  /\ (forall cs, k_nearest_stop_coords hamlet 0 0 3 = inr cs ->
        length cs = 3 /\ incl cs (data (ALL_STOPS_TREE hamlet)))
  /\ (forall e, k_nearest_stop_coords hamlet 0 0 3 = inl e ->
        (3 = 0 /\ e = ValueError)
        \/ (3 = 1 /\ e = TypeError)
        \/ (length (data (ALL_STOPS_TREE hamlet)) < 3 /\ e = IndexError)).
Proof. exact (k_nearest_stop_coords_outcomes hamlet 0 0 3). Defined.

(** ** [find_routes] *)

Lemma k_nearest_inr dl lat lon k cs :
  k_nearest_stop_coords dl lat lon k = inr cs ->
  length cs = k /\ incl cs (data (ALL_STOPS_TREE dl)).
Proof.
  intros Hcs.
  destruct (Nat.lt_ge_cases k 2) as [Hlt | H2];
    [destruct k as [| [| k]]; [discriminate | discriminate | lia] |].
  destruct (Nat.le_gt_cases k (length (data (ALL_STOPS_TREE dl))))
    as [Hle | Hgt].
  - destruct (k_nearest_enough dl lat lon k H2 Hle) as (cs' & Hcs' & Hl & Hi).
    rewrite Hcs in Hcs'; injection Hcs' as <-; auto.
  - rewrite (k_nearest_short dl lat lon k H2 Hgt) in Hcs; discriminate.
Qed.

Lemma candidate_pairs_inr distance dl origin destination max_walk pairs :
  candidate_pairs distance dl origin destination max_walk = inr pairs
  <-> exists os ds,
        k_nearest_stop_coords dl (fst origin) (snd origin) 10 = inr os
        /\ k_nearest_stop_coords dl (fst destination) (snd destination) 10
           = inr ds
        /\ pairs = list_prod (within_walk distance origin max_walk os)
                             (within_walk distance destination max_walk ds).
Proof.
  unfold candidate_pairs; rewrite bind_inr; split.
  - intros (os & Ho & H); apply bind_inr in H as (ds & Hd & H).
    injection H as <-; exists os, ds; auto.
  - intros (os & ds & Ho & Hd & ->); exists os; split; [exact Ho |].
    rewrite Hd; reflexivity.
Qed.

Lemma candidate_pairs_In distance dl origin destination max_walk pairs o d :
  candidate_pairs distance dl origin destination max_walk = inr pairs ->
  In (o, d) pairs ->
  In o (data (ALL_STOPS_TREE dl)) /\ In d (data (ALL_STOPS_TREE dl))
  /\ (distance origin o <= inject_Z max_walk)%Q
  /\ (distance destination d <= inject_Z max_walk)%Q.
Proof.
  intros Hp Hin; apply candidate_pairs_inr in Hp as (os & ds & Ho & Hd & ->).
  apply in_prod_iff in Hin as [H1 H2].
  apply within_walk_In in H1 as [H1 Hdo]; apply within_walk_In in H2 as [H2 Hdd].
  apply k_nearest_inr in Ho as [_ Hio]; apply k_nearest_inr in Hd as [_ Hid].
  auto.
Qed.

Lemma parse_route_length dl p j :
  parse_route dl p = inr j -> length p = S (length j).
Proof.
  intros H; apply parse_route_inr in H as (a & rest & -> & H).
  apply segments_length in H; simpl; congruence.
Qed.

Lemma within_walk_length distance point max_walk stops :
  length (within_walk distance point max_walk stops) <= length stops.
Proof. apply filter_length_le. Qed.

(** X13: the planner returns at least one journey and at most a hundred:
    one for each candidate pair whose path has the least length, out of at
    most ten origin candidates times ten destination candidates. *)
Theorem find_routes_journey_count distance dl origin destination max_walk js :
  find_routes distance dl origin destination max_walk = inr js ->
  1 <= length js <= 100.
Proof.
  intros H.
  apply find_routes_inr in H as (pairs & options & kept & Hp & Ho & Hk & Hj).
  apply mapM_inr, Forall2_length_eq in Ho.
  apply mapM_inr, Forall2_length_eq in Hj.
  pose proof (keep_fewest_inr _ _ Hk) as (Hne & Hkne & _).
  assert (Hlen : length kept <= length options).
  { destruct (keep_fewest_filter options Hne) as (m & Hk' & _).
    rewrite Hk in Hk'; injection Hk' as ->; apply filter_length_le. }
  apply candidate_pairs_inr in Hp as (os & ds & Hos & Hds & ->).
  apply k_nearest_inr in Hos as [Hlo _]; apply k_nearest_inr in Hds as [Hld _].
  rewrite length_prod in Ho.
  pose proof (within_walk_length distance origin max_walk os).
  pose proof (within_walk_length distance destination max_walk ds).
  split; [destruct kept; [congruence | simpl in Hj; lia] | nia].
Qed.

Lemma find_routes_journey_count_witness :
  1 <= length
         [[VDict
             [("busses", VList [VStr "L1"]);
              ("board",
               VDict [("id", VStr "s1"); ("lat", VNum 0); ("lng", VNum 1)]);
              ("deboard",
               VDict [("id", VStr "s2"); ("lat", VNum 0); ("lng", VNum 2)])]]]
  <= 100.
Proof.
  apply (find_routes_journey_count grid_distance town (0, 0)%Q (0, 3)%Q 100).
  vm_compute; reflexivity.
Defined.

(** X14: all journeys of one answer have the same number of segments, one
    less than the least number of stops on the path of any candidate pair:
    no candidate pair has a path with fewer changes than the journeys
    returned. *)
Theorem find_routes_equal_changes distance dl origin destination max_walk js :
  find_routes distance dl origin destination max_walk = inr js ->
  exists pairs m,
    candidate_pairs distance dl origin destination max_walk = inr pairs
    /\ (forall j, In j js -> length j = m)
    /\ (forall pair p, In pair pairs -> pair_transits dl pair = inr p ->
          S m <= length p)
    /\ (exists pair p, In pair pairs /\ pair_transits dl pair = inr p
                       /\ length p = S m).
Proof.
  intros H.
  apply find_routes_fewest in H
    as (pairs & options & m & Hp & Ho & (t & Ht & Hm) & Hmin & Hj).
  assert (Hpos : 1 <= m).
  { destruct (Forall2_In_r _ _ _ _ Ho Ht) as (pair & _ & Hpt).
    apply pair_transits_inr in Hpt as (so & sd & _ & _ & Hsp).
    apply shortest_path_sound in Hsp as (_ & Hh & _).
    destruct t; [discriminate | simpl in Hm; lia]. }
  exists pairs, (m - 1); splits.
  - exact Hp.
  - intros j Hin; destruct (Forall2_In_r _ _ _ _ Hj Hin) as (p & Hpin & Hpr).
    apply filter_In in Hpin as [_ Hlen]; apply Nat.eqb_eq in Hlen.
    apply parse_route_length in Hpr; lia.
  - intros pair p Hin Hpt.
    destruct (Forall2_In_l _ _ _ _ Ho Hin) as (p' & Hp' & Hpt').
    rewrite Hpt in Hpt'; injection Hpt' as <-.
    specialize (Hmin p Hp'); lia.
  - destruct (Forall2_In_r _ _ _ _ Ho Ht) as (pair & Hin & Hpt).
    exists pair, t; splits; auto; lia.
Qed.

Lemma find_routes_equal_changes_witness :
  exists pairs m,
    candidate_pairs grid_distance town (0, 0)%Q (0, 3)%Q 100 = inr pairs
    /\ (forall j,
          In j [[VDict
                   [("busses", VList [VStr "L1"]);
                    ("board",
                     VDict [("id", VStr "s1"); ("lat", VNum 0);
                            ("lng", VNum 1)]);
                    ("deboard",
                     VDict [("id", VStr "s2"); ("lat", VNum 0);
                            ("lng", VNum 2)])]]] ->
          length j = m)
    /\ (forall pair p, In pair pairs -> pair_transits town pair = inr p ->
          S m <= length p)
    /\ (exists pair p, In pair pairs /\ pair_transits town pair = inr p
                       /\ length p = S m).
Proof.
  apply (find_routes_equal_changes grid_distance town (0, 0)%Q (0, 3)%Q 100).
  vm_compute; reflexivity.
Defined.

(** X15: every journey of the answer belongs to a candidate pair: an
    indexed stop within [max_walk] of the origin and an indexed stop within
    [max_walk] of the destination; a journey with at least one segment
    boards first at the former and deboards last at the latter. *)
Theorem find_routes_endpoints distance dl origin destination max_walk js :
  find_routes distance dl origin destination max_walk = inr js ->
  forall j, In j js ->
    exists o d so sd,
      In o (data (ALL_STOPS_TREE dl)) /\ In d (data (ALL_STOPS_TREE dl))
      /\ (distance origin o <= inject_Z max_walk)%Q
      /\ (distance destination d <= inject_Z max_walk)%Q
      /\ stop_id dl o = inr so /\ stop_id dl d = inr sd
      /\ (j <> [] ->
          field "board" "id" (hd (VStr EmptyString) j) = Some (VStr so)
          /\ field "deboard" "id" (last j (VStr EmptyString))
             = Some (VStr sd)).
Proof.
  intros H j Hin.
  apply find_routes_fewest in H as (pairs & options & m & Hp & Ho & _ & _ & Hj).
  destruct (Forall2_In_r _ _ _ _ Hj Hin) as (p & Hpin & Hpr).
  apply filter_In in Hpin as [Hpin _].
  destruct (Forall2_In_r _ _ _ _ Ho Hpin) as ([o d] & Hpair & Hpt).
  apply pair_transits_inr in Hpt as (so & sd & Hso & Hsd & Hsp).
  simpl in Hso, Hsd.
  destruct (candidate_pairs_In _ _ _ _ _ _ o d Hp Hpair)
    as (Hio & Hid & Hdo & Hdd).
  pose proof (shortest_path_sound _ so sd p Hsp) as (_ & Hh & Hl & _).
  exists o, d, so, sd; splits; auto.
  intros Hne; apply parse_route_inr in Hpr as (a & rest & -> & Hs).
  injection Hh as ->.
  destruct rest as [| b rest]; [injection Hs as <-; congruence |].
  split.
  - destruct j as [| s0 j]; [congruence |].
    apply (segments_board_first dl so (b :: rest) (s0 :: j) s0 Hs eq_refl).
  - rewrite (segments_deboard_last dl so (b :: rest) j Hs); [| discriminate].
    rewrite <- Hl; reflexivity.
Qed.

Lemma find_routes_endpoints_witness :
  exists o d so sd,
    In o (data (ALL_STOPS_TREE town)) /\ In d (data (ALL_STOPS_TREE town))
    /\ (grid_distance (0, 0)%Q o <= inject_Z 100)%Q
    /\ (grid_distance (0, 3)%Q d <= inject_Z 100)%Q
    /\ stop_id town o = inr so /\ stop_id town d = inr sd
    /\ ([VDict
           [("busses", VList [VStr "L1"]);
            ("board",
             VDict [("id", VStr "s1"); ("lat", VNum 0); ("lng", VNum 1)]);
            ("deboard",
             VDict [("id", VStr "s2"); ("lat", VNum 0); ("lng", VNum 2)])]]
        <> [] ->
        field "board" "id"
          (hd (VStr EmptyString)
             [VDict
                [("busses", VList [VStr "L1"]);
                 ("board",
                  VDict [("id", VStr "s1"); ("lat", VNum 0); ("lng", VNum 1)]);
                 ("deboard",
                  VDict [("id", VStr "s2"); ("lat", VNum 0);
                         ("lng", VNum 2)])]])
        = Some (VStr so)
        /\ field "deboard" "id"
             (last
                [VDict
                   [("busses", VList [VStr "L1"]);
                    ("board",
                     VDict [("id", VStr "s1"); ("lat", VNum 0);
                            ("lng", VNum 1)]);
                    ("deboard",
                     VDict [("id", VStr "s2"); ("lat", VNum 0);
                            ("lng", VNum 2)])]]
                (VStr EmptyString))
           = Some (VStr sd)).
Proof.
  apply (find_routes_endpoints grid_distance town (0, 0)%Q (0, 3)%Q 100
           [[VDict
               [("busses", VList [VStr "L1"]);
                ("board",
                 VDict [("id", VStr "s1"); ("lat", VNum 0); ("lng", VNum 1)]);
                ("deboard",
                 VDict [("id", VStr "s2"); ("lat", VNum 0);
                        ("lng", VNum 2)])]]]).
  - vm_compute; reflexivity.
  - left; reflexivity.
Defined.

Lemma shortest_path_same_inr g s p : shortest_path g s s = inr p -> p = [s].
Proof.
  intros Hp; assert (Hs : has_node g s = true).
  { unfold shortest_path in Hp; destruct (has_node g s); [reflexivity |].
    discriminate. }
  rewrite (shortest_path_same g s Hs) in Hp; injection Hp as <-; reflexivity.
Qed.

(** X16: when some candidate pair names the same stop on both sides, every
    journey of the answer has no segment: the traveller is already
    there. *)
Theorem find_routes_already_there distance dl origin destination max_walk js
        pairs o d s :
  find_routes distance dl origin destination max_walk = inr js ->
  candidate_pairs distance dl origin destination max_walk = inr pairs ->
  In (o, d) pairs -> stop_id dl o = inr s -> stop_id dl d = inr s ->
  js <> [] /\ forall j, In j js -> j = [].
Proof.
  intros H Hp Hin Hso Hsd.
  pose proof (find_routes_fewest _ _ _ _ _ _ H)
    as (pairs' & options & m & Hp' & Ho & (t & Ht & Hm) & Hmin & Hj).
  rewrite Hp in Hp'; injection Hp' as <-.
  destruct (Forall2_In_l _ _ _ _ Ho Hin) as (p & Hpin & Hpt).
  apply pair_transits_inr in Hpt as (so & sd & Hso' & Hsd' & Hsp).
  simpl in Hso', Hsd'; rewrite Hso in Hso'; rewrite Hsd in Hsd'.
  injection Hso' as <-; injection Hsd' as <-.
  apply shortest_path_same_inr in Hsp; subst p.
  specialize (Hmin [s] Hpin); simpl in Hmin.
  split.
  - apply find_routes_inr in H as (? & ? & kept & _ & _ & Hk & Hjs).
    apply keep_fewest_inr in Hk as (_ & Hkne & _).
    apply mapM_inr, Forall2_length_eq in Hjs.
    destruct js; [destruct kept; [congruence | discriminate] | discriminate].
  - intros j Hjin; destruct (Forall2_In_r _ _ _ _ Hj Hjin) as (p & Hp1 & Hpr).
    apply filter_In in Hp1 as [_ Hlen]; apply Nat.eqb_eq in Hlen.
    apply parse_route_length in Hpr.
    destruct j; [reflexivity | simpl in Hpr; lia].
Qed.

Lemma find_routes_already_there_witness :
  [@nil value; []] <> [] /\ forall j, In j [@nil value; []] -> j = [].
Proof.
  apply (find_routes_already_there grid_distance town (0, 2)%Q (0, 3)%Q 100
           [[]; []]
           (list_prod [(0, 2)%Q; (0, 1)%Q; (0, 3)%Q]
                      [(0, 3)%Q; (0, 2)%Q; (0, 4)%Q])
           (0, 2)%Q (0, 2)%Q "s2"); try (vm_compute; reflexivity).
  simpl; tauto.
Defined.

Lemma mapM_inl {A B} (f : A -> result B) (l : list A) (e : exn) :
  mapM f l = inl e -> exists a, In a l /\ f a = inl e.
Proof.
  induction l as [| x l IH]; simpl; [discriminate |].
  destruct (f x) as [e' | b] eqn:Hx; simpl.
  - intros H; injection H as <-; exists x; auto.
  - destruct (mapM f l) as [e' | bs]; simpl; [| discriminate].
    intros H; injection H as <-.
    destruct (IH eq_refl) as (a & Ha & Hfa); exists a; auto.
Qed.

(** X17: on well-formed data (ten indexed stops or more, every indexed
    coordinate naming a stop of the graph, every stop of the graph with a
    coordinate) the planner has three outcomes and no other: ValueError
    when there is no candidate pair, NetworkXNoPath when the stops of some
    candidate pair are not connected, and a list of journeys when there are
    pairs and all are connected. *)
Theorem find_routes_outcomes distance dl origin destination max_walk :
  well_formed dl ->
  exists pairs,
    candidate_pairs distance dl origin destination max_walk = inr pairs
    /\ ((pairs = []
         /\ find_routes distance dl origin destination max_walk
            = inl ValueError)
        \/ ((exists o d so sd,
                In (o, d) pairs
                /\ stop_id dl o = inr so /\ stop_id dl d = inr sd
                /\ ~ connected (GRAPH dl) so sd)
            /\ find_routes distance dl origin destination max_walk
               = inl NetworkXNoPath)
        \/ (pairs <> []
            /\ (forall o d so sd,
                   In (o, d) pairs ->
                   stop_id dl o = inr so -> stop_id dl d = inr sd ->
                   connected (GRAPH dl) so sd)
            /\ exists js,
                 find_routes distance dl origin destination max_walk
                 = inr js)).
Proof.
  intros Hwf; pose proof Hwf as [Hten Hids Hcov].
  destruct (k_nearest_enough dl (fst origin) (snd origin) 10)
    as (os & Hos & _); [lia | exact Hten |].
  destruct (k_nearest_enough dl (fst destination) (snd destination) 10)
    as (ds & Hds & _); [lia | exact Hten |].
  set (pairs := list_prod (within_walk distance origin max_walk os)
                          (within_walk distance destination max_walk ds)).
  assert (Hp : candidate_pairs distance dl origin destination max_walk
               = inr pairs).
  { apply candidate_pairs_inr; exists os, ds; auto. }
  clearbody pairs; exists pairs; split; [exact Hp |].
  assert (Hcase : pairs = [] \/ pairs <> [])
    by (destruct pairs; [left; reflexivity | right; discriminate]).
  destruct Hcase as [Hnil | Hne].
  { left; split; [exact Hnil |].
    apply find_routes_no_pairs; rewrite Hp, Hnil; reflexivity. }
  right.
  destruct (mapM (pair_transits dl) pairs) as [e | options] eqn:Hm.
  - left; apply mapM_inl in Hm as ([o d] & Hin & He).
    destruct (candidate_pairs_indexed _ _ _ _ _ _ o d Hp Hten Hin) as [Hio Hid].
    destruct (pair_transits_well_formed dl o d Hwf Hio Hid)
      as [Hno | (p & Hpt)]; [| congruence].
    destruct (Hids o Hio) as (so & Hso & Hnso).
    destruct (Hids d Hid) as (sd & Hsd & Hnsd).
    split.
    + exists o, d, so, sd; splits; auto.
      intros Hc.
      destruct (shortest_path_complete _ so sd Hnso Hnsd Hc) as (p & Hsp).
      assert (Hpt : pair_transits dl (o, d) = inr p)
        by (apply pair_transits_inr; exists so, sd; auto).
      congruence.
    + apply (find_routes_pairs_inl _ _ _ _ _ _ _ Hp).
      apply mapM_same_error.
      * intros [o' d'] Hin'.
        destruct (candidate_pairs_indexed _ _ _ _ _ _ o' d' Hp Hten Hin')
          as [Ho' Hd'].
        apply (pair_transits_well_formed dl o' d' Hwf Ho' Hd').
      * exists (o, d); auto.
  - right.
    assert (Hconn : forall o d so sd,
               In (o, d) pairs ->
               stop_id dl o = inr so -> stop_id dl d = inr sd ->
               connected (GRAPH dl) so sd).
    { intros o d so sd Hin Hso Hsd.
      apply mapM_inr in Hm.
      destruct (Forall2_In_l _ _ _ _ Hm Hin) as (p & _ & Hpt).
      apply pair_transits_inr in Hpt as (so' & sd' & Hso' & Hsd' & Hsp).
      simpl in Hso', Hsd'; rewrite Hso in Hso'; rewrite Hsd in Hsd'.
      injection Hso' as <-; injection Hsd' as <-.
      apply (shortest_path_sound _ _ _ _ Hsp). }
    splits; auto.
    destruct (find_routes_total distance dl origin destination max_walk pairs
                Hwf Hp Hne Hconn) as (opts & kept & js & _ & _ & _ & Hjs & _).
    exists js; exact Hjs.
Qed.

Lemma find_routes_outcomes_witness :
  exists pairs,
    candidate_pairs grid_distance split_town (0, 0)%Q (0, 3)%Q 100 = inr pairs
    /\ ((pairs = []
         /\ find_routes grid_distance split_town (0, 0)%Q (0, 3)%Q 100
            = inl ValueError)
        \/ ((exists o d so sd,
                In (o, d) pairs
                /\ stop_id split_town o = inr so
                /\ stop_id split_town d = inr sd
                /\ ~ connected (GRAPH split_town) so sd)
            /\ find_routes grid_distance split_town (0, 0)%Q (0, 3)%Q 100
               = inl NetworkXNoPath)
        \/ (pairs <> []
            /\ (forall o d so sd,
                   In (o, d) pairs ->
                   stop_id split_town o = inr so ->
                   stop_id split_town d = inr sd ->
                   connected (GRAPH split_town) so sd)
            /\ exists js,
                 find_routes grid_distance split_town (0, 0)%Q (0, 3)%Q 100
                 = inr js)).
Proof.
  apply (find_routes_outcomes grid_distance split_town (0, 0)%Q (0, 3)%Q 100).
  exact split_town_well_formed.
Defined.

Lemma within_walk_mono distance point w w' stops s :
  (w <= w')%Z ->
  In s (within_walk distance point w stops) ->
  In s (within_walk distance point w' stops).
Proof.
  intros Hw Hin; apply within_walk_In in Hin as [Hin Hle].
  apply within_walk_In; split; [exact Hin |].
  eapply Qle_trans; [exact Hle |].
  rewrite <- Zle_Qle; exact Hw.
Qed.

(** X18: allowing a longer walk never costs changes: when the planner
    answers for [max_walk] and for a larger [max_walk'], the journeys for
    the larger one have no more segments than those for the smaller. *)
Theorem find_routes_longer_walk distance dl origin destination
        max_walk max_walk' js js' :
  (max_walk <= max_walk')%Z ->
  find_routes distance dl origin destination max_walk = inr js ->
  find_routes distance dl origin destination max_walk' = inr js' ->
  forall j j', In j js -> In j' js' -> length j' <= length j.
Proof.
  intros Hw H H' j j' Hj Hj'.
  apply find_routes_fewest in H
    as (pairs & options & m & Hp & Ho & (t & Ht & Hm) & _ & Hjs).
  apply find_routes_fewest in H'
    as (pairs' & options' & m' & Hp' & Ho' & _ & Hmin' & Hjs').
  assert (Hle : m' <= m).
  { destruct (Forall2_In_r _ _ _ _ Ho Ht) as ([o d] & Hin & Hpt).
    assert (Hin' : In (o, d) pairs').
    { apply candidate_pairs_inr in Hp as (os & ds & Hos & Hds & ->).
      apply candidate_pairs_inr in Hp' as (os' & ds' & Hos' & Hds' & ->).
      rewrite Hos in Hos'; injection Hos' as <-.
      rewrite Hds in Hds'; injection Hds' as <-.
      apply in_prod_iff in Hin as [H1 H2]; apply in_prod_iff; split;
        eapply within_walk_mono; eassumption. }
    destruct (Forall2_In_l _ _ _ _ Ho' Hin') as (t' & Ht' & Hpt').
    rewrite Hpt in Hpt'; injection Hpt' as <-.
    rewrite <- Hm; apply Hmin', Ht'. }
  destruct (Forall2_In_r _ _ _ _ Hjs Hj) as (p & Hpin & Hpr).
  destruct (Forall2_In_r _ _ _ _ Hjs' Hj') as (p' & Hpin' & Hpr').
  apply filter_In in Hpin as [_ Hl]; apply Nat.eqb_eq in Hl.
  apply filter_In in Hpin' as [_ Hl']; apply Nat.eqb_eq in Hl'.
  apply parse_route_length in Hpr; apply parse_route_length in Hpr'; lia.
Qed.

Lemma find_routes_longer_walk_witness :
  exists js js',
    find_routes grid_distance town (0, 0)%Q (0, 3)%Q 0 = inr js
    /\ find_routes grid_distance town (0, 0)%Q (0, 3)%Q 100 = inr js'
    /\ forall j j', In j js -> In j' js' -> length j' <= length j.
Proof.
  eexists _, _; split; [vm_compute; reflexivity |].
  split; [vm_compute; reflexivity |].
  apply (find_routes_longer_walk grid_distance town (0, 0)%Q (0, 3)%Q 0 100).
  - lia.
  - vm_compute; reflexivity.
  - vm_compute; reflexivity.
Defined.

(** ** The way back *)

(** X19: a path that decomposes also decomposes when walked backwards, into
    as many segments, and the hops carry the same lines in reverse order. *)
Theorem parse_route_backwards dl path segs :
  parse_route dl path = inr segs ->
  exists segs',
    parse_route dl (rev path) = inr segs'
    /\ length segs' = length segs
    /\ map (lines_under "busses") segs'
       = rev (map (lines_under "busses") segs).
Proof.
  intros H; apply parse_route_inr in H as (a & rest & -> & H).
  revert a segs H; induction rest as [| b rest IH]; intros a segs H.
  - injection H as <-; exists []; splits; reflexivity.
  - apply segments_cons in H as (ca & cb & segs0 & Hne & Hca & Hcb & Hs & ->).
    destruct (IH b segs0 Hs) as (s' & Hs' & Hlen & Hlines).
    replace (rev (a :: b :: rest)) with (rev rest ++ b :: [a])
      by (simpl; rewrite <- app_assoc; reflexivity).
    rewrite (parse_route_split dl (rev rest) b [a]).
    change (rev rest ++ [b]) with (rev (b :: rest)); rewrite Hs'; cbn [bind].
    assert (Hba : parse_route dl [b; a]
                  = inr [VDict
                           [("busses",
                             VList (map VStr
                                      (map line
                                         (parallel_edges (GRAPH dl) b a))));
                            ("board",
                             VDict [("id", VStr b); ("lat", VNum (fst cb));
                                    ("lng", VNum (snd cb))]);
                            ("deboard",
                             VDict [("id", VStr a); ("lat", VNum (fst ca));
                                    ("lng", VNum (snd ca))])]]).
    { apply segments_cons; exists cb, ca, []; splits; auto.
      rewrite parallel_edges_sym; exact Hne. }
    rewrite Hba; cbn [bind ret].
    eexists; splits; [reflexivity | |].
    + rewrite length_app; simpl; lia.
    + rewrite map_app, Hlines; simpl.
      unfold lines_under, dict_get; cbn [assoc String.eqb Ascii.eqb Bool.eqb].
      rewrite !strings_of_map, (parallel_edges_sym _ b a); reflexivity.
Qed.

Lemma parse_route_backwards_witness :
  exists segs',
    parse_route town (rev ["s0"; "s1"; "s2"]) = inr segs'
    /\ length segs' = 2
    /\ map (lines_under "busses") segs' = rev [["L1"; "L2"]; ["L1"]].
Proof.
  destruct (parse_route_backwards town ["s0"; "s1"; "s2"] _ eq_refl)
    as (segs' & H1 & H2 & H3).
  exists segs'; splits; [exact H1 | exact H2 | exact H3].
Defined.

(** X20: the planner asks for no more changes on the way back: when it
    answers for a trip and for the return trip, all journeys of both
    answers have the same number of segments. *)
Theorem find_routes_way_back distance dl origin destination max_walk js js' :
  find_routes distance dl origin destination max_walk = inr js ->
  find_routes distance dl destination origin max_walk = inr js' ->
  forall j j', In j js -> In j' js' -> length j' = length j.
Proof.
  assert (Hhalf : forall o d js js',
             find_routes distance dl o d max_walk = inr js ->
             find_routes distance dl d o max_walk = inr js' ->
             forall j j', In j js -> In j' js' -> length j' <= length j).
  { intros o d ks ks' H H' j j' Hj Hj'.
    apply find_routes_fewest in H
      as (pairs & options & m & Hp & Ho & (t & Ht & Hm) & _ & Hjs).
    apply find_routes_fewest in H'
      as (pairs' & options' & m' & Hp' & Ho' & _ & Hmin' & Hjs').
    assert (Hle : m' <= m).
    { destruct (Forall2_In_r _ _ _ _ Ho Ht) as ([x y] & Hin & Hpt).
      assert (Hin' : In (y, x) pairs').
      { apply candidate_pairs_inr in Hp as (os & ds & Hos & Hds & ->).
        apply candidate_pairs_inr in Hp' as (os' & ds' & Hos' & Hds' & ->).
        rewrite Hds in Hos'; injection Hos' as <-.
        rewrite Hos in Hds'; injection Hds' as <-.
        apply in_prod_iff in Hin as [H1 H2]; apply in_prod_iff; auto. }
      destruct (Forall2_In_l _ _ _ _ Ho' Hin') as (t' & Ht' & Hpt').
      apply pair_transits_inr in Hpt as (sx & sy & Hsx & Hsy & Hsp).
      apply pair_transits_inr in Hpt' as (sy' & sx' & Hsy' & Hsx' & Hsp').
      simpl in *; rewrite Hsx in Hsx'; rewrite Hsy in Hsy'.
      injection Hsx' as <-; injection Hsy' as <-.
      destruct (shortest_path_return dl sx sy t Hsp) as (q & Hq & Hlen).
      rewrite Hsp' in Hq; injection Hq as <-.
      rewrite <- Hm, <- Hlen; apply Hmin', Ht'. }
    destruct (Forall2_In_r _ _ _ _ Hjs Hj) as (p & Hpin & Hpr).
    destruct (Forall2_In_r _ _ _ _ Hjs' Hj') as (p' & Hpin' & Hpr').
    apply filter_In in Hpin as [_ Hl]; apply Nat.eqb_eq in Hl.
    apply filter_In in Hpin' as [_ Hl']; apply Nat.eqb_eq in Hl'.
    apply parse_route_length in Hpr; apply parse_route_length in Hpr'; lia. }
  intros H H' j j' Hj Hj'; apply Nat.le_antisymm.
  - apply (Hhalf origin destination js js' H H' j j' Hj Hj').
  - apply (Hhalf destination origin js' js H' H j' j Hj' Hj).
Qed.

Lemma find_routes_way_back_witness :
  exists js js',
    find_routes grid_distance town (0, 0)%Q (0, 3)%Q 100 = inr js
    /\ find_routes grid_distance town (0, 3)%Q (0, 0)%Q 100 = inr js'
    /\ forall j j', In j js -> In j' js' -> length j' = length j.
Proof.
  eexists _, _; split; [vm_compute; reflexivity |].
  split; [vm_compute; reflexivity |].
  apply (find_routes_way_back grid_distance town (0, 0)%Q (0, 3)%Q 100).
  - vm_compute; reflexivity.
  - vm_compute; reflexivity.
Defined.
